(** * Helixer annotation slicer: a shallow embedding of
      [helixerprep/datas/annotations/slicer.py]

    The development follows the layout of the source file: the data the
    slicer reads and writes (coordinates, features, pieces), the position
    classifier [FeatureVsCoords], the interval-tree index of
    [SliceController], the [TranscriptTrimmer] walk with its border split,
    and the per-super-locus driver [modify4slice].

    Integers are Python integers ([Z]); object identity is a key of a
    finite map; exceptions and mutation are threaded through a small
    state-and-exception monad. *)

From Stdlib Require Import ZArith Lia.
From stdpp Require Import gmap strings list fin_maps.

Local Open Scope Z_scope.

(** ** Data model *)

(** [geenuff.orm.Coordinate]: one window [[start, end)] of a sequence. *)
Module Coordinate.
Record t := mk {
    id : nat;
    seqid : string;
    start : Z;
    end_ : Z
  }.
End Coordinate.

(** [geenuff.orm.Feature], restricted to the attributes the slicer reads
    or writes.  The handler and the row it wraps are one object here.  The
    source reads the owning coordinate both as [coordinate] and as
    [coordinates]; both are the field [coordinate].  It reads the piece of a
    feature both as [transcribed_piece] (one piece) and through the
    association [transcribed_pieces] (a list); both attributes are kept. *)
Module Feature.
Record t := mk {
    id : nat;
    given_id : option string;
    start : Z;
    end_ : Z;
    position : Z;
    is_plus_strand : bool;
    start_is_biological_start : bool;
    end_is_biological_end : bool;
    coordinate : Coordinate.t;
    transcribed_piece : nat;
    transcribed_pieces : list nat
  }.

Definition set_start (v : Z) (f : t) : t :=
    mk (id f) (given_id f) v (end_ f) (position f) (is_plus_strand f)
       (start_is_biological_start f) (end_is_biological_end f)
       (coordinate f) (transcribed_piece f) (transcribed_pieces f).
Definition set_end (v : Z) (f : t) : t :=
    mk (id f) (given_id f) (start f) v (position f) (is_plus_strand f)
       (start_is_biological_start f) (end_is_biological_end f)
       (coordinate f) (transcribed_piece f) (transcribed_pieces f).
Definition set_id (v : nat) (f : t) : t :=
    mk v (given_id f) (start f) (end_ f) (position f) (is_plus_strand f)
       (start_is_biological_start f) (end_is_biological_end f)
       (coordinate f) (transcribed_piece f) (transcribed_pieces f).
Definition set_given_id (v : option string) (f : t) : t :=
    mk (id f) v (start f) (end_ f) (position f) (is_plus_strand f)
       (start_is_biological_start f) (end_is_biological_end f)
       (coordinate f) (transcribed_piece f) (transcribed_pieces f).
Definition set_start_is_biological_start (v : bool) (f : t) : t :=
    mk (id f) (given_id f) (start f) (end_ f) (position f) (is_plus_strand f)
       v (end_is_biological_end f)
       (coordinate f) (transcribed_piece f) (transcribed_pieces f).
Definition set_end_is_biological_end (v : bool) (f : t) : t :=
    mk (id f) (given_id f) (start f) (end_ f) (position f) (is_plus_strand f)
       (start_is_biological_start f) v
       (coordinate f) (transcribed_piece f) (transcribed_pieces f).
Definition set_coordinate (v : Coordinate.t) (f : t) : t :=
    mk (id f) (given_id f) (start f) (end_ f) (position f) (is_plus_strand f)
       (start_is_biological_start f) (end_is_biological_end f)
       v (transcribed_piece f) (transcribed_pieces f).
Definition set_transcribed_pieces (v : list nat) (f : t) : t :=
    mk (id f) (given_id f) (start f) (end_ f) (position f) (is_plus_strand f)
       (start_is_biological_start f) (end_is_biological_end f)
       (coordinate f) (transcribed_piece f) v.
End Feature.

(** [geenuff.orm.TranscribedPiece]: the two owners [mk_new_piece] passes. *)
Module TranscribedPiece.
Record t := mk {
    id : nat;
    super_locus : nat;
    transcribed : nat
  }.
End TranscribedPiece.

(** ** FeatureVsCoords: the position classifier *)

Module FeatureVsCoords.
Record t := mk {
    feature : Feature.t;
    slice_coordinates : Coordinate.t;
    is_plus_strand : bool;
    sign : Z;
    feature_py_start : Z;
    feature_py_end : Z
  }.

  (** [__init__] *)
Definition init (feature : Feature.t) (slice_coordinates : Coordinate.t)
      (is_plus_strand : bool) : t :=
    mk feature slice_coordinates is_plus_strand
       (if is_plus_strand then 1 else -1)
       (if is_plus_strand then Feature.start feature
        else Feature.end_ feature + 1)
       (if is_plus_strand then Feature.end_ feature
        else Feature.start feature + 1).

Definition is_detached (self : t) : bool :=
    if negb (String.eqb (Coordinate.seqid (slice_coordinates self))
                        (Coordinate.seqid (Feature.coordinate (feature self))))
    then true
    else if negb (Bool.eqb (is_plus_strand self)
                           (Feature.is_plus_strand (feature self)))
    then true
    else false.

Definition _is_lower (self : t) : bool :=
    Coordinate.start (slice_coordinates self) - feature_py_end self >=? 0.

Definition _is_higher (self : t) : bool :=
    feature_py_start self - Coordinate.end_ (slice_coordinates self) >=? 0.

Definition is_upstream (self : t) : bool :=
    if is_plus_strand self then _is_lower self else _is_higher self.

Definition is_downstream (self : t) : bool :=
    if is_plus_strand self then _is_higher self else _is_lower self.

Definition is_contained (self : t) : bool :=
    let start_contained :=
      (Coordinate.start (slice_coordinates self) <=? feature_py_start self)
      && (feature_py_start self <? Coordinate.end_ (slice_coordinates self)) in
    let end_contained :=
      (Coordinate.start (slice_coordinates self) <? feature_py_end self)
      && (feature_py_end self <=? Coordinate.end_ (slice_coordinates self)) in
    start_contained && end_contained.

Definition _overlaps_lower (self : t) : bool :=
    (feature_py_start self <? Coordinate.start (slice_coordinates self))
    && (Coordinate.start (slice_coordinates self) <? feature_py_end self).

Definition _overlaps_higher (self : t) : bool :=
    (feature_py_start self <? Coordinate.end_ (slice_coordinates self))
    && (Coordinate.end_ (slice_coordinates self) <? feature_py_end self).

Definition overlaps_upstream (self : t) : bool :=
    if is_plus_strand self then _overlaps_lower self else _overlaps_higher self.

Definition overlaps_downstream (self : t) : bool :=
    if is_plus_strand self then _overlaps_higher self else _overlaps_lower self.
End FeatureVsCoords.

(** The six branches of the [if]/[elif] chain of
    [TranscriptTrimmer.modify4new_slice]. *)
Inductive Category :=
  | Detached | Upstream | OverlapsUpstream
  | Contained | OverlapsDownstream | Downstream.

#[global] Instance Category_eq_dec : EqDecision Category.
Proof. solve_decision. Defined.

(** The predicate of [FeatureVsCoords] each branch tests. *)
Definition category_holds (pi : FeatureVsCoords.t) (c : Category) : bool :=
  match c with
  | Detached => FeatureVsCoords.is_detached pi
  | Upstream => FeatureVsCoords.is_upstream pi
  | OverlapsUpstream => FeatureVsCoords.overlaps_upstream pi
  | Contained => FeatureVsCoords.is_contained pi
  | OverlapsDownstream => FeatureVsCoords.overlaps_downstream pi
  | Downstream => FeatureVsCoords.is_downstream pi
  end.

(** The order in which the chain tests the predicates. *)
Definition chain_order : list Category :=
  [Detached; Upstream; OverlapsUpstream; Contained; OverlapsDownstream;
   Downstream].

(** The branch the chain takes: the first test that succeeds; [None] is the
    final [else] that raises [AssertionError]. *)
Definition position_category (pi : FeatureVsCoords.t) : option Category :=
  if FeatureVsCoords.is_detached pi then Some Detached
  else if FeatureVsCoords.is_upstream pi then Some Upstream
  else if FeatureVsCoords.overlaps_upstream pi then Some OverlapsUpstream
  else if FeatureVsCoords.is_contained pi then Some Contained
  else if FeatureVsCoords.overlaps_downstream pi then Some OverlapsDownstream
  else if FeatureVsCoords.is_downstream pi then Some Downstream
  else None.

Definition classify (f : Feature.t) (window : Coordinate.t) (strand : bool)
    : option Category :=
  position_category (FeatureVsCoords.init f window strand).


(** ** The interval tree of the [intervaltree] library

    An [IntervalTree] is a set of intervals [(begin, end, data)].  It is a
    list without duplicates here: the claims are about which intervals a
    query returns, not about the order of a Python set. *)

Module Interval.
Record t := mk {
    begin : Z;
    end_ : Z;
    data : nat
  }.

#[global] Instance eq_dec : EqDecision t.
Proof. solve_decision. Defined.
End Interval.

Module IntervalTree.
(** [tree[b:e] = d], that is [addi(b, e, d)]: an interval already in the
    set is left alone; a null interval raises [ValueError] ([None]). *)
Definition addi (b e : Z) (d : nat) (tree : list Interval.t)
    : option (list Interval.t) :=
  if decide (Interval.mk b e d ∈ tree) then Some tree
  else if b >=? e then None
  else Some (tree ++ [Interval.mk b e d]).

(** [tree[b:e]], that is [overlap(b, e)]: nothing for an empty range,
    otherwise every interval that meets [[b, e)]. *)
Definition overlap (b e : Z) (tree : list Interval.t) : list Interval.t :=
  if b >=? e then []
  else List.filter
         (λ iv, (Interval.begin iv <? e) && (b <? Interval.end_ iv)) tree.
End IntervalTree.

(** ** State, exceptions and the monad *)

Inductive exn :=
  | ValueError
  | AssertionError
  | IndexError
  | NoFeaturesInSliceError
  | DanglingReference.

#[global] Instance exn_eq_dec : EqDecision exn.
Proof. solve_decision. Defined.

(** The entries of [CoreQueue.piece_swaps] and [CoreQueue.coord_swaps]. *)
Record PieceSwap := mkPieceSwap {
  piece_id_old : nat;
  piece_id_new : nat;
  piece_swap_feat_id : nat
}.

Record CoordSwap := mkCoordSwap {
  coord_swap_feat_id : nat;
  coordinate_id_new : nat
}.

(** One [conn.execute(action, a_list)] of [CoreQueue.execute_so_far]. *)
Inductive Statement :=
  | piece_swaps_update (rows : list PieceSwap)
  | coord_swaps_update (rows : list CoordSwap).

(** Everything a trimmer run can read or write: the session's features and
    pieces (keyed by object identity, which is also the primary key), the
    shared [trees] dictionary, the shared [CoreQueue], and the attributes of
    the [TranscriptTrimmer] itself.  [DanglingReference] is raised when an
    identity is not in the store; Python references cannot dangle, so it
    stands for an ill-formed input of the model only. *)
Record State := mkState {
  features : gmap nat Feature.t;
  pieces : gmap nat TranscribedPiece.t;
  next_id : nat;
  interval_trees : gmap string (list Interval.t);
  piece_swaps : list PieceSwap;
  coord_swaps : list CoordSwap;
  executed : list Statement;
  transcript : nat;
  super_locus : nat;
  handlers : list nat;
  _downstream_piece : option nat
}.

Definition set_features (v : gmap nat Feature.t) (s : State) : State :=
  mkState v (pieces s) (next_id s) (interval_trees s) (piece_swaps s)
    (coord_swaps s) (executed s) (transcript s) (super_locus s) (handlers s)
    (_downstream_piece s).
Definition set_pieces (v : gmap nat TranscribedPiece.t) (s : State) : State :=
  mkState (features s) v (next_id s) (interval_trees s) (piece_swaps s)
    (coord_swaps s) (executed s) (transcript s) (super_locus s) (handlers s)
    (_downstream_piece s).
Definition set_next_id (v : nat) (s : State) : State :=
  mkState (features s) (pieces s) v (interval_trees s) (piece_swaps s)
    (coord_swaps s) (executed s) (transcript s) (super_locus s) (handlers s)
    (_downstream_piece s).
Definition set_interval_trees (v : gmap string (list Interval.t)) (s : State)
    : State :=
  mkState (features s) (pieces s) (next_id s) v (piece_swaps s)
    (coord_swaps s) (executed s) (transcript s) (super_locus s) (handlers s)
    (_downstream_piece s).
Definition set_piece_swaps (v : list PieceSwap) (s : State) : State :=
  mkState (features s) (pieces s) (next_id s) (interval_trees s) v
    (coord_swaps s) (executed s) (transcript s) (super_locus s) (handlers s)
    (_downstream_piece s).
Definition set_coord_swaps (v : list CoordSwap) (s : State) : State :=
  mkState (features s) (pieces s) (next_id s) (interval_trees s)
    (piece_swaps s) v (executed s) (transcript s) (super_locus s) (handlers s)
    (_downstream_piece s).
Definition set_executed (v : list Statement) (s : State) : State :=
  mkState (features s) (pieces s) (next_id s) (interval_trees s)
    (piece_swaps s) (coord_swaps s) v (transcript s) (super_locus s)
    (handlers s) (_downstream_piece s).
Definition set_handlers (v : list nat) (s : State) : State :=
  mkState (features s) (pieces s) (next_id s) (interval_trees s)
    (piece_swaps s) (coord_swaps s) (executed s) (transcript s)
    (super_locus s) v (_downstream_piece s).
Definition set__downstream_piece (v : option nat) (s : State) : State :=
  mkState (features s) (pieces s) (next_id s) (interval_trees s)
    (piece_swaps s) (coord_swaps s) (executed s) (transcript s)
    (super_locus s) (handlers s) v.

Inductive Res (A : Type) :=
  | Ok (a : A)
  | Raise (e : exn).
Arguments Ok {A} a.
Arguments Raise {A} e.

(** A computation runs on a state and ends normally or with an exception;
    the mutations made before a [raise] stay, as in Python. *)
Definition M (A : Type) : Type := State → Res A * State.

#[global] Instance M_ret : MRet M := λ A a s, (Ok a, s).
#[global] Instance M_bind : MBind M := λ A B f m s,
  match m s with
  | (Ok a, s') => f a s'
  | (Raise e, s') => (Raise e, s')
  end.
#[global] Instance M_throw : MThrow exn M := λ A e s, (Raise e, s).

Definition gets {A} (f : State → A) : M A := λ s, (Ok (f s), s).
Definition modify (f : State → State) : M unit := λ s, (Ok tt, f s).

(** [assert b] *)
Definition assert (b : bool) : M unit :=
  if b then mret tt else mthrow AssertionError.

(** [for x in l: body(x)] *)
Fixpoint for_each {A} (body : A → M unit) (l : list A) : M unit :=
  match l with
  | [] => mret tt
  | x :: l' => body x ;; for_each body l'
  end.

(** Dereference a feature. *)
Definition get_feature (i : nat) : M Feature.t :=
  o ← gets (λ s, features s !! i);
  match o with
  | Some f => mret f
  | None => mthrow DanglingReference
  end.

(** ** CoreQueue *)

(** [execute_so_far]: each non-empty list is sent as one statement and
    emptied.  The state keeps the statements in the order they were sent, in
    [executed]; it does not follow them into the database: what the UPDATEs
    do to the rows they name (the coordinate of a feature, its link to a
    piece) is not applied to [features], and a connection that fails is not
    modelled. *)
Definition execute_so_far : M unit :=
  modify (λ s,
    let s1 :=
      match piece_swaps s with
      | [] => s
      | rows => set_piece_swaps []
                  (set_executed (executed s ++ [piece_swaps_update rows]) s)
      end in
    match coord_swaps s1 with
    | [] => s1
    | rows => set_coord_swaps []
                (set_executed (executed s1 ++ [coord_swaps_update rows]) s1)
    end).

(** ** The spatial index of [SliceController] *)

(** [load_to_intervaltree(obj, trees)]: the feature is filed under its
    sequence id, on the unit interval that starts at its [position]. *)
Definition load_to_intervaltree (obj : nat) : M unit :=
  o ← get_feature obj;
  let seqid := Coordinate.seqid (Feature.coordinate o) in
  trees ← gets interval_trees;
  let tree := default [] (trees !! seqid) in
  let py_start := Feature.position o in
  match IntervalTree.addi py_start (py_start + 1) obj tree with
  | Some tree' => modify (λ s, set_interval_trees (<[seqid := tree']> trees) s)
  | None => mthrow ValueError
  end.

(** [SliceController.fill_intervaltrees], over the features of all super
    loci in the order the loops visit them. *)
Definition fill_intervaltrees (all_features : list nat) : M unit :=
  for_each load_to_intervaltree all_features.

(** The comprehension of [get_features_from_slice]: the data of the
    intervals whose feature is on the requested strand. *)
Fixpoint on_strand (is_plus_strand : bool) (intervals : list Interval.t)
    : M (list nat) :=
  match intervals with
  | [] => mret []
  | x :: rest =>
      f ← get_feature (Interval.data x);
      out ← on_strand is_plus_strand rest;
      mret (if Bool.eqb (Feature.is_plus_strand f) is_plus_strand
            then Interval.data x :: out else out)
  end.

(** [SliceController.get_features_from_slice] *)
Definition get_features_from_slice (seqid : string) (start end_ : Z)
    (is_plus_strand : bool) : M (list nat) :=
  trees ← gets interval_trees;
  if decide (trees = ∅) then mthrow ValueError
  else
    match trees !! seqid with
    | None => mret []
    | Some tree =>
        on_strand is_plus_strand (IntervalTree.overlap start end_ tree)
    end.

(** ** TranscriptTrimmer *)

(** [__init__]: a new trimmer for one transcript, on the shared session,
    trees and queue. *)
Definition TranscriptTrimmer_init (transcript super_locus : nat) (s : State)
    : State :=
  mkState (features s) (pieces s) (next_id s) (interval_trees s)
    (piece_swaps s) (coord_swaps s) (executed s) transcript super_locus []
    None.

Definition fresh : M nat :=
  n ← gets next_id;
  modify (set_next_id (S n)) ;;
  mret n.

(** [mk_new_piece] *)
Definition mk_new_piece : M nat :=
  sl ← gets super_locus;
  tr ← gets transcript;
  new_piece ← fresh;
  modify (λ s, set_pieces
                 (<[new_piece := TranscribedPiece.mk new_piece sl tr]>
                    (pieces s)) s) ;;
  modify (λ s, set_handlers (handlers s ++ [new_piece]) s) ;;
  mret new_piece.

(** The property [downstream_piece] *)
Definition downstream_piece : M nat :=
  dp ← gets _downstream_piece;
  match dp with
  | None =>
      p ← mk_new_piece;
      modify (set__downstream_piece (Some p)) ;;
      mret p
  | Some p => mret p
  end.

(** [new_handled_data(template, Feature, start=, given_id=, coordinate=,
    start_is_biological_start=)], the one way the slicer calls it: a new
    feature receives every attribute and link of the template
    ([fax_all_attrs_to_another]), then the keyword arguments are set. *)
Definition new_handled_data (template : nat) (start : Z)
    (given_id : option string) (coordinate : Coordinate.t)
    (start_is_biological_start : bool) : M nat :=
  t ← get_feature template;
  n ← fresh;
  let data :=
    Feature.set_start_is_biological_start start_is_biological_start
      (Feature.set_coordinate coordinate
         (Feature.set_given_id given_id
            (Feature.set_start start (Feature.set_id n t)))) in
  modify (λ s, set_features (<[n := data]> (features s)) s) ;;
  mret n.

(** [list.remove]: the first occurrence goes; [None] is [ValueError]. *)
Fixpoint remove_first (x : nat) (l : list nat) : option (list nat) :=
  match l with
  | [] => None
  | y :: l' =>
      if decide (x = y) then Some l'
      else cons y <$> remove_first x l'
  end.

(** [swap_piece]: [de_link] from the old piece, which raises [ValueError]
    when the feature is not linked to it, then [link_to] the new one. *)
Definition swap_piece (feature_handler new_piece old_piece : nat) : M unit :=
  f ← get_feature feature_handler;
  match remove_first old_piece (Feature.transcribed_pieces f) with
  | None => mthrow ValueError
  | Some linked =>
      modify (λ s, set_features
                     (<[feature_handler :=
                          Feature.set_transcribed_pieces
                            (linked ++ [new_piece]) f]> (features s)) s)
  end.

(** [set_status_downstream_border] *)
Definition set_status_downstream_border (new_coords old_coords : Coordinate.t)
    (is_plus_strand : bool) (template_feature new_piece old_piece : nat)
    : M unit :=
  let down_at :=
    if is_plus_strand then Coordinate.end_ new_coords
    else Coordinate.start new_coords - 1 in
  t ← get_feature template_feature;
  assert (bool_decide (old_piece ∈ Feature.transcribed_pieces t)) ;;
  downstream ← new_handled_data template_feature down_at None old_coords false;
  load_to_intervaltree downstream ;;
  modify (λ s, set_features
                 (alter (λ f, Feature.set_end_is_biological_end false
                                (Feature.set_end down_at f))
                    template_feature (features s)) s) ;;
  swap_piece downstream new_piece old_piece.

(** One item of [transition_5p_to_3p]: the aligned features and their
    piece.  The generator belongs to geenuff; the walk is its output. *)
Record Step := mkStep {
  aligned_features : list nat;
  piece : nat
}.

(** The locals [seen_one_overlap] and [piece_at_border]. *)
Record Locals := mkLocals {
  seen_one_overlap : bool;
  piece_at_border : option nat
}.

(** The body of the [for] loop of [modify4new_slice]. *)
Definition walk_step (new_coords : Coordinate.t) (is_plus_strand : bool)
    (loc : Locals) (st : Step) : M Locals :=
  match aligned_features st with
  | [] => mthrow IndexError
  | f0_ref :: _ =>
      f0 ← get_feature f0_ref;
      let position_interp :=
        FeatureVsCoords.init f0 new_coords is_plus_strand in
      match position_category position_interp with
      | Some Detached | Some Upstream | Some OverlapsUpstream => mret loc
      | Some Contained =>
          for_each (λ f_ref,
              f ← get_feature f_ref;
              modify (λ s, set_coord_swaps
                (coord_swaps s
                 ++ [mkCoordSwap (Feature.id f) (Coordinate.id new_coords)]) s))
            (aligned_features st) ;;
          mret (mkLocals true (piece_at_border loc))
      | Some OverlapsDownstream =>
          let border := Feature.transcribed_piece f0 in
          new_piece_after_border ← downstream_piece;
          execute_so_far ;;
          for_each (λ feature,
              f0' ← get_feature f0_ref;
              set_status_downstream_border new_coords (Feature.coordinate f0')
                is_plus_strand feature new_piece_after_border border)
            (aligned_features st) ;;
          mret (mkLocals true (Some border))
      | Some Downstream =>
          match piece_at_border loc with
          | Some border =>
              (if decide (piece st = border) then
                 for_each (λ f_ref,
                     p ← downstream_piece;
                     f ← get_feature f_ref;
                     modify (λ s, set_piece_swaps
                       (piece_swaps s
                        ++ [mkPieceSwap border p (Feature.id f)]) s))
                   (aligned_features st)
               else mret tt) ;;
              mret loc
          | None => mret loc
          end
      | None => mthrow AssertionError
      end
  end.

Fixpoint walk_loop (new_coords : Coordinate.t) (is_plus_strand : bool)
    (walk : list Step) (loc : Locals) : M Locals :=
  match walk with
  | [] => mret loc
  | st :: rest =>
      loc' ← walk_step new_coords is_plus_strand loc st;
      walk_loop new_coords is_plus_strand rest loc'
  end.

(** [modify4new_slice]; [walk] is what [transition_5p_to_3p] yields, and
    [trees] is the dictionary of the state. *)
Definition modify4new_slice (new_coords : Coordinate.t) (is_plus_strand : bool)
    (walk : list Step) : M unit :=
  loc ← walk_loop new_coords is_plus_strand walk (mkLocals false None);
  if negb (seen_one_overlap loc) then mthrow NoFeaturesInSliceError
  else mret tt.

(** ** SuperLocusHandler.modify4slice *)

(** A transcript as [modify4slice] sees it: its identity, its pieces and
    the walk its trimmer will take. *)
Record Transcribed := mkTranscribed {
  transcribed_id : nat;
  transcribed_pieces : list nat;
  transition_5p_to_3p : list Step
}.

(** [piece.features]: the features linked to the piece. *)
Definition piece_features (s : State) (p : nat) : list Feature.t :=
  List.filter (λ f, bool_decide (p ∈ Feature.transcribed_pieces f))
    (snd <$> map_to_list (features s)).

(** The test the handler of [NoFeaturesInSliceError] asserts to be false
    for a feature on the strand of the slice. *)
Definition in_rechecked_range (new_coords : Coordinate.t)
    (is_plus_strand : bool) (feature : Feature.t) : bool :=
  if is_plus_strand then
    (Coordinate.start new_coords <=? Feature.position feature)
    && (Feature.position feature <=? Coordinate.end_ new_coords)
  else
    (Coordinate.start new_coords - 1 <=? Feature.position feature)
    && (Feature.position feature <=? Coordinate.end_ new_coords - 1).

(** The body of the [except NoFeaturesInSliceError] clause. *)
Definition recheck_no_overlap (new_coords : Coordinate.t)
    (is_plus_strand : bool) (transcribed : Transcribed) : M unit :=
  for_each (λ p,
      fs ← gets (λ s, piece_features s p);
      for_each (λ feature,
          if Bool.eqb is_plus_strand (Feature.is_plus_strand feature)
          then assert (negb (in_rechecked_range new_coords is_plus_strand
                               feature))
          else mret tt) fs)
    (transcribed_pieces transcribed).

(** [try: ... except NoFeaturesInSliceError: ...] *)
Definition try_except_NoFeaturesInSliceError (body handler : M unit)
    : M unit :=
  λ s, match body s with
       | (Raise NoFeaturesInSliceError, s') => handler s'
       | r => r
       end.

Definition modify4slice (self : nat) (new_coords : Coordinate.t)
    (is_plus_strand : bool) (transcribeds : list Transcribed) : M unit :=
  for_each (λ transcribed,
      modify (TranscriptTrimmer_init (transcribed_id transcribed) self) ;;
      try_except_NoFeaturesInSliceError
        (modify4new_slice new_coords is_plus_strand
           (transition_5p_to_3p transcribed))
        (recheck_no_overlap new_coords is_plus_strand transcribed))
    transcribeds.

(** ** Invariants of a trimmer run *)

(** What a trimmer owns of the pieces: the piece table, the handlers it has
    made, its cached downstream piece and the owners it passes on. *)
Definition piece_view (s : State) :
    gmap nat TranscribedPiece.t * list nat * option nat * nat * nat :=
  (pieces s, handlers s, _downstream_piece s, super_locus s, transcript s).

(** Either the trimmer has made no piece, or it has made one, caches it
    and has added it, and nothing else, to the piece table [pieces0] it
    started from. *)
Definition one_piece_invariant (pieces0 : gmap nat TranscribedPiece.t)
    (sl tr : nat) (s : State) : Prop :=
  super_locus s = sl ∧ transcript s = tr
  ∧ ((handlers s = [] ∧ _downstream_piece s = None ∧ pieces s = pieces0)
     ∨ ∃ p, handlers s = [p] ∧ _downstream_piece s = Some p
            ∧ pieces s = <[p := TranscribedPiece.mk p sl tr]> pieces0).

(** A computation that leaves the trimmer's view of the pieces alone,
    however it ends. *)
Definition keeps_piece_view {A} (m : M A) : Prop :=
  ∀ s, piece_view (snd (m s)) = piece_view s.

Definition preserves {A} (P : State → Prop) (m : M A) : Prop :=
  ∀ s, P s → P (snd (m s)).

(** The exceptions a computation may end with are among [E]. *)
Definition raises_in {A} (E : exn → Prop) (m : M A) : Prop :=
  ∀ s e, fst (m s) = Raise e → E e.

(** The branch a step of the walk takes when it is run on the state [s]:
    the category of its first aligned feature. *)
Definition step_category (new_coords : Coordinate.t) (is_plus_strand : bool)
    (s : State) (st : Step) : option Category :=
  match aligned_features st with
  | [] => None
  | f0_ref :: _ =>
      match features s !! f0_ref with
      | Some f0 =>
          position_category
            (FeatureVsCoords.init f0 new_coords is_plus_strand)
      | None => None
      end
  end.

(** The effect [set_status_downstream_border] has on the features and the
    index, for the template [template] (which was [t] in the state [s]) and
    the new feature [new_ref]: the new feature did not exist; it is the
    template's copy with its own identity, no given id, the start at the
    cut, the coordinate [old_coords], [start_is_biological_start] false and
    the link to [border] replaced by a link to [new_piece]; the template
    has its end at the cut and [end_is_biological_end] false; and the index
    holds the new feature under the sequence of [old_coords]. *)
Definition split_at_border (s s' : State) (cut : Z) (old_coords : Coordinate.t)
    (border new_piece template new_ref : nat) (t : Feature.t) : Prop :=
  features s !! new_ref = None
  ∧ ∃ linked,
      remove_first border (Feature.transcribed_pieces t) = Some linked
      ∧ features s' !! new_ref
        = Some (Feature.mk new_ref None cut (Feature.end_ t)
                  (Feature.position t) (Feature.is_plus_strand t) false
                  (Feature.end_is_biological_end t) old_coords
                  (Feature.transcribed_piece t) (linked ++ [new_piece]))
      ∧ features s' !! template
        = Some (Feature.set_end_is_biological_end false
                  (Feature.set_end cut t))
      ∧ Interval.mk (Feature.position t) (Feature.position t + 1) new_ref
        ∈ default [] (interval_trees s' !! Coordinate.seqid old_coords).

(** ** Example data

    One sequence, the window [[1000, 2000)] on it, plus-strand features of
    piece 3, and a session that holds some features and that piece, with
    identities from 10 on unused and a new trimmer for transcript 5 of
    super locus 0. *)
Definition chr1 : Coordinate.t := Coordinate.mk 0 "chr1" 0 10000.

Definition window_1000_2000 : Coordinate.t := Coordinate.mk 1 "chr1" 1000 2000.

Definition plus_feature (id : nat) (start end_ : Z) : Feature.t :=
  Feature.mk id None start end_ start true true true chr1 3 [3%nat].

Definition example_session (features : gmap nat Feature.t) : State :=
  mkState features {[3%nat := TranscribedPiece.mk 3 0 5]} 10 ∅ [] [] [] 5 0
    [] None.

Definition window_5000_6000 : Coordinate.t := Coordinate.mk 2 "chr1" 5000 6000.

(** ** Growth of the session *)

(** Identities from [next_id] on are unused. *)
Definition fresh_from_next_id (s : State) : Prop :=
  ∀ i, (next_id s ≤ i)%nat → features s !! i = None ∧ pieces s !! i = None.

(** The attributes of a feature that neither a split nor a queued swap
    touches. *)
Definition same_identity (f f' : Feature.t) : Prop :=
  Feature.id f' = Feature.id f
  ∧ Feature.given_id f' = Feature.given_id f
  ∧ Feature.start f' = Feature.start f
  ∧ Feature.position f' = Feature.position f
  ∧ Feature.is_plus_strand f' = Feature.is_plus_strand f
  ∧ Feature.start_is_biological_start f' = Feature.start_is_biological_start f.

(** From [s0] to [s] nothing was taken away: every feature of [s0] is still
    there with the same identity, every piece of [s0] is still there
    unchanged, and every interval of the index is still in its tree. *)
Definition only_adds (s0 s : State) : Prop :=
  (∀ i f, features s0 !! i = Some f →
     ∃ f', features s !! i = Some f' ∧ same_identity f f')
  ∧ (∀ p x, pieces s0 !! p = Some x → pieces s !! p = Some x)
  ∧ (∀ seqid iv, iv ∈ default [] (interval_trees s0 !! seqid) →
                 iv ∈ default [] (interval_trees s !! seqid)).

(** ** SliceController: the passes over the slices *)

(** A sequence of the structured genome, as [gen_slices] reads it: the
    [seqid] of its [meta_info] and its slices. *)
Record SequenceSlice := mkSequenceSlice {
  slice_start : Z;
  slice_end : Z;
  slice_id : string
}.

Record Sequence := mkSequence {
  meta_info_seqid : string;
  slices : list SequenceSlice
}.

(** [gen_slices]: the tuples [(seqid, start, end, slice_id)], sequence by
    sequence. *)
Definition gen_slices (sequences : list Sequence)
    : list (string * Z * Z * string) :=
  seq ← sequences;
  slice ← slices seq;
  [(meta_info_seqid seq, slice_start slice, slice_end slice, slice_id slice)].

Section SliceController.
(** What the slicer takes from geenuff's objects: the super locus a feature
    belongs to, the order in which Python iterates the set of super loci,
    and the transcripts of a super locus with the walk each trimmer will
    make on the state at hand. *)
Variable super_locus_of : nat → nat.
Variable iteration_order : list nat → list nat.
Variable transcribeds : nat → State → list Transcribed.

(** [get_super_loci_frm_features]: the set of the features' super loci. *)
Definition get_super_loci_frm_features (features : list nat) : list nat :=
  iteration_order (remove_dups (super_locus_of <$> features)).

(** [get_super_loci_frm_slice] *)
Definition get_super_loci_frm_slice (seqid : string) (start end_ : Z)
    (is_plus_strand : bool) : M (list nat) :=
  features ← get_features_from_slice seqid start end_ is_plus_strand;
  mret (get_super_loci_frm_features features).

(** [_slice_annotations_1way]: for each slice a new coordinate is added
    and committed, every overlapping super locus is modified, and the queue
    is executed. *)
Definition _slice_annotations_1way (slices : list (string * Z * Z * string))
    (is_plus_strand : bool) : M unit :=
  for_each (λ '(seqid, start, end_, _),
      id ← fresh;
      let coordinates := Coordinate.mk id seqid start end_ in
      overlapping_super_loci ←
        get_super_loci_frm_slice seqid start end_ is_plus_strand;
      for_each (λ super_locus,
          ts ← gets (transcribeds super_locus);
          modify4slice super_locus coordinates is_plus_strand ts)
        overlapping_super_loci ;;
      execute_so_far) slices.

(** [slice_annotations]: the slices in order for the plus strand, then in
    reverse order for the minus strand. *)
Definition slice_annotations (sequences : list Sequence) : M unit :=
  let slices := gen_slices sequences in
  _slice_annotations_1way slices true ;;
  _slice_annotations_1way (reverse slices) false.

End SliceController.

(** * Properties *)

(** ** The position classifier *)

Ltac unfold_classifier :=
  unfold classify, position_category, category_holds,
    FeatureVsCoords.is_detached, FeatureVsCoords.is_upstream,
    FeatureVsCoords.is_downstream, FeatureVsCoords.is_contained,
    FeatureVsCoords.overlaps_upstream, FeatureVsCoords.overlaps_downstream,
    FeatureVsCoords._is_lower, FeatureVsCoords._is_higher,
    FeatureVsCoords._overlaps_lower, FeatureVsCoords._overlaps_higher in *.

(** Turn the boolean comparisons of the goal and the context into
    propositions that [lia] reads. *)
Ltac reflect_comparisons :=
  repeat match goal with
    | H : context [andb _ _ = true] |- _ => rewrite andb_true_iff in H
    | H : context [andb _ _ = false] |- _ => rewrite andb_false_iff in H
    | |- context [andb _ _ = true] => rewrite andb_true_iff
    | |- context [andb _ _ = false] => rewrite andb_false_iff
    end;
  rewrite ?Z.geb_leb, ?Z.leb_le, ?Z.ltb_lt, ?Z.leb_gt, ?Z.ltb_ge in *.

(** Once the strand and sequence tests have let a feature through, the
    five geometric tests leave nothing over: whatever the integers are,
    one of them succeeds. *)
Lemma geometric_tests_exhaustive (pi : FeatureVsCoords.t) :
  FeatureVsCoords.is_upstream pi = false →
  FeatureVsCoords.overlaps_upstream pi = false →
  FeatureVsCoords.is_contained pi = false →
  FeatureVsCoords.overlaps_downstream pi = false →
  FeatureVsCoords.is_downstream pi = true.
Proof.
  unfold_classifier.
  destruct (FeatureVsCoords.is_plus_strand pi); intros Hu Hou Hc Hod;
    reflect_comparisons; lia.
Qed.

Lemma position_category_total (pi : FeatureVsCoords.t) :
  ∃ c, position_category pi = Some c.
Proof.
  unfold position_category.
  destruct (FeatureVsCoords.is_detached pi); [eauto |].
  destruct (FeatureVsCoords.is_upstream pi) eqn:Hu; [eauto |].
  destruct (FeatureVsCoords.overlaps_upstream pi) eqn:Hou; [eauto |].
  destruct (FeatureVsCoords.is_contained pi) eqn:Hc; [eauto |].
  destruct (FeatureVsCoords.overlaps_downstream pi) eqn:Hod; [eauto |].
  rewrite (geometric_tests_exhaustive pi Hu Hou Hc Hod). eauto.
Qed.

(** C1, as the code has it.  The chain of [modify4new_slice] always takes
    one of its six branches, so the final [else] with its [AssertionError]
    is never reached; the branch taken is the first one, in the order
    Detached, Upstream, OverlapsUpstream, Contained, OverlapsDownstream,
    Downstream, whose test succeeds.  The tests themselves may succeed
    together. *)
Theorem position_category_first_match (pi : FeatureVsCoords.t) :
  ∃ c earlier later,
    position_category pi = Some c
    ∧ chain_order = earlier ++ c :: later
    ∧ category_holds pi c = true
    ∧ ∀ c', c' ∈ earlier → category_holds pi c' = false.
Proof.
  unfold position_category, chain_order.
  destruct (FeatureVsCoords.is_detached pi) eqn:Hd.
  { exists Detached, [], [Upstream; OverlapsUpstream; Contained;
      OverlapsDownstream; Downstream].
    repeat split; [done | by intros c' ?%elem_of_nil]. }
  destruct (FeatureVsCoords.is_upstream pi) eqn:Hu.
  { exists Upstream, [Detached], [OverlapsUpstream; Contained;
      OverlapsDownstream; Downstream].
    repeat split; [done |].
    intros c' Hc'. repeat (apply elem_of_cons in Hc' as [-> | Hc']; [done |]).
    by apply elem_of_nil in Hc'. }
  destruct (FeatureVsCoords.overlaps_upstream pi) eqn:Hou.
  { exists OverlapsUpstream, [Detached; Upstream], [Contained;
      OverlapsDownstream; Downstream].
    repeat split; [done |].
    intros c' Hc'. repeat (apply elem_of_cons in Hc' as [-> | Hc']; [done |]).
    by apply elem_of_nil in Hc'. }
  destruct (FeatureVsCoords.is_contained pi) eqn:Hc.
  { exists Contained, [Detached; Upstream; OverlapsUpstream],
      [OverlapsDownstream; Downstream].
    repeat split; [done |].
    intros c' Hc'. repeat (apply elem_of_cons in Hc' as [-> | Hc']; [done |]).
    by apply elem_of_nil in Hc'. }
  destruct (FeatureVsCoords.overlaps_downstream pi) eqn:Hod.
  { exists OverlapsDownstream,
      [Detached; Upstream; OverlapsUpstream; Contained], [Downstream].
    repeat split; [done |].
    intros c' Hc'. repeat (apply elem_of_cons in Hc' as [-> | Hc']; [done |]).
    by apply elem_of_nil in Hc'. }
  pose proof (geometric_tests_exhaustive pi Hu Hou Hc Hod) as Hdown.
  rewrite Hdown.
  exists Downstream,
    [Detached; Upstream; OverlapsUpstream; Contained; OverlapsDownstream], [].
  repeat split; [done |].
  intros c' Hc'. repeat (apply elem_of_cons in Hc' as [-> | Hc']; [done |]).
  by apply elem_of_nil in Hc'.
Qed.

(** C1, as the claim words it, fails: a plus-strand feature [[500, 2500)]
    spans the whole window [[1000, 2000)], and both the OverlapsUpstream
    and the OverlapsDownstream test succeed for it (the chain takes the
    OverlapsUpstream branch). *)
Lemma categories_not_exclusive :
  let chr1 := Coordinate.mk 0 "chr1" 0 10000 in
  let window := Coordinate.mk 1 "chr1" 1000 2000 in
  let f := Feature.mk 7 None 500 2500 500 true true true chr1 3 [3%nat] in
  let pi := FeatureVsCoords.init f window true in
  category_holds pi OverlapsUpstream = true
  ∧ category_holds pi OverlapsDownstream = true
  ∧ position_category pi = Some OverlapsUpstream
  ∧ ¬ (∃ c, category_holds pi c = true
            ∧ ∀ c', category_holds pi c' = true → c' = c).
Proof.
  cbv zeta. repeat split; try reflexivity.
  intros (c & _ & Huniq).
  pose proof (Huniq OverlapsUpstream eq_refl) as H1.
  pose proof (Huniq OverlapsDownstream eq_refl) as H2.
  congruence.
Qed.

(** The scenario of the specification: the plus-strand feature
    [[0, 500)] is upstream of the window [[1000, 2000)]; the minus-strand
    feature over the same bases (start 499, end -1) is downstream of it, and
    so is a minus-strand feature that keeps the raw pair (0, 500). *)
Example scenario_upstream_plus :
  classify (Feature.mk 7 None 0 500 0 true true true
              (Coordinate.mk 0 "chr1" 0 10000) 3 [3%nat])
    (Coordinate.mk 1 "chr1" 1000 2000) true = Some Upstream.
Proof. reflexivity. Qed.

Example scenario_downstream_minus :
  classify (Feature.mk 7 None 499 (-1) 499 false true true
              (Coordinate.mk 0 "chr1" 0 10000) 3 [3%nat])
    (Coordinate.mk 1 "chr1" 1000 2000) false = Some Downstream
  ∧ classify (Feature.mk 7 None 0 500 0 false true true
                (Coordinate.mk 0 "chr1" 0 10000) 3 [3%nat])
      (Coordinate.mk 1 "chr1" 1000 2000) false = Some Downstream.
Proof. split; reflexivity. Qed.

(** Settle the outermost test of a chain from the inequalities at hand. *)
Ltac test_is b v :=
  let H := fresh in
  assert (H : b = v)
    by (destruct b eqn:?; try reflexivity; exfalso; reflect_comparisons; lia);
  rewrite H; clear H; cbv iota.

Ltac settle_chain :=
  repeat match goal with
         | |- (if ?b then _ else _) = _ =>
             first [test_is b true | test_is b false]
         end.

(** What a chain that answered Upstream, or Downstream, has tested. *)
Ltac chain_answer H :=
  revert H;
  repeat match goal with
         | |- (if ?b then _ else _) = _ → _ =>
             let E := fresh "E" in destruct b eqn:E
         end;
  try discriminate; intros _; reflect_comparisons.

(** C5, as the code has it.  Take a feature that is well-formed on the
    strand it is on (start below end on the plus strand, end below start on
    the minus strand), the feature with the same raw start and end on the
    other strand, and a window longer than one position.  Whenever the
    classifier returns Upstream for the first on its strand, it returns
    Downstream for the second on the other strand; and whenever it returns
    Downstream for the first, it returns Upstream for the second.  The
    strand of the feature flips with the flag: a feature that keeps its own
    strand is Detached under the other flag. *)
Theorem strand_flip_swaps_upstream_downstream (f g : Feature.t)
    (w : Coordinate.t) (strand : bool) :
  Feature.start g = Feature.start f →
  Feature.end_ g = Feature.end_ f →
  Coordinate.seqid (Feature.coordinate g)
  = Coordinate.seqid (Feature.coordinate f) →
  Feature.is_plus_strand g = negb strand →
  (if strand then Feature.start f < Feature.end_ f
   else Feature.end_ f < Feature.start f) →
  Coordinate.start w + 1 < Coordinate.end_ w →
  (classify f w strand = Some Upstream →
   classify g w (negb strand) = Some Downstream)
  ∧ (classify f w strand = Some Downstream →
     classify g w (negb strand) = Some Upstream).
Proof.
  intros Hs He Hseq Hg Hwf Hw.
  unfold classify, position_category, FeatureVsCoords.is_detached. simpl.
  rewrite Hseq, Hg, Bool.eqb_reflx.
  destruct (String.eqb_spec (Coordinate.seqid w)
              (Coordinate.seqid (Feature.coordinate f))); simpl;
    [| split; discriminate].
  destruct (Bool.eqb strand (Feature.is_plus_strand f)); simpl;
    [| split; discriminate].
  unfold FeatureVsCoords.is_upstream, FeatureVsCoords.is_downstream,
    FeatureVsCoords.is_contained, FeatureVsCoords.overlaps_upstream,
    FeatureVsCoords.overlaps_downstream, FeatureVsCoords._is_lower,
    FeatureVsCoords._is_higher, FeatureVsCoords._overlaps_lower,
    FeatureVsCoords._overlaps_higher. simpl. rewrite Hs, He.
  set (fs := Feature.start f) in *. set (fe := Feature.end_ f) in *.
  set (ws := Coordinate.start w) in *. set (we := Coordinate.end_ w) in *.
  clearbody fs fe ws we. clear Hs He Hseq Hg. rewrite !Z.geb_leb.
  destruct strand; simpl; split; intros H; chain_answer H; settle_chain;
    reflexivity.
Qed.

Lemma strand_flip_swaps_upstream_downstream_witness :
  let f := Feature.mk 7 None 0 500 0 true true true chr1 3 [3%nat] in
  let g := Feature.mk 7 None 0 500 0 false true true chr1 3 [3%nat] in
  classify f window_1000_2000 true = Some Upstream
  ∧ classify g window_1000_2000 false = Some Downstream.
Proof.
  intros f g. split; [reflexivity |].
  refine (proj1 (strand_flip_swaps_upstream_downstream f g window_1000_2000
                   true _ _ _ _ _ _) _);
    first [reflexivity | simpl; lia].
Defined.

(** C5, as the claim words it, fails.  With the raw pair (start 3, end 5)
    and the window [[0, 6)], the minus-strand reading is Upstream while the
    plus-strand reading is Contained, not Downstream; and flipping only the
    flag, for a feature that keeps its own strand, gives Detached.  Against
    the one-position window [[5, 6)] the same pair is Upstream on both
    strands. *)
Lemma raw_coordinates_do_not_swap :
  let chr1 := Coordinate.mk 0 "chr1" 0 10000 in
  let w := Coordinate.mk 1 "chr1" 0 6 in
  let w1 := Coordinate.mk 2 "chr1" 5 6 in
  let f_minus := Feature.mk 7 None 3 5 3 false true true chr1 3 [3%nat] in
  let f_plus := Feature.mk 7 None 3 5 3 true true true chr1 3 [3%nat] in
  classify f_minus w false = Some Upstream
  ∧ classify f_plus w true = Some Contained
  ∧ classify f_minus w true = Some Detached
  ∧ FeatureVsCoords.is_upstream (FeatureVsCoords.init f_minus w false) = true
  ∧ FeatureVsCoords.is_downstream (FeatureVsCoords.init f_minus w true)
    = false
  ∧ classify f_plus w1 true = Some Upstream
  ∧ classify f_minus w1 false = Some Upstream
  ∧ ¬ (∀ (f : Feature.t) (w : Coordinate.t) (strand : bool),
         classify f w strand = Some Upstream →
         classify f w (negb strand) = Some Downstream).
Proof.
  cbv zeta. repeat split; try reflexivity.
  intros H.
  specialize (H (Feature.mk 7 None 3 5 3 false true true
                   (Coordinate.mk 0 "chr1" 0 10000) 3 [3%nat])
                (Coordinate.mk 1 "chr1" 0 6) false eq_refl).
  discriminate H.
Qed.

(** C6, as the code has it.  [is_contained] is true exactly when the
    effective start is in [[window.start, window.end)] and the effective end
    is in [(window.start, window.end]]; on the minus strand the effective
    start is [feature.end + 1] and the effective end is [feature.start + 1].
    For a feature whose effective start is below its effective end this is
    the same as: effective start at or after [window.start] and effective
    end at or before [window.end]. *)
Theorem is_contained_spec (f : Feature.t) (w : Coordinate.t) (strand : bool) :
  let pi := FeatureVsCoords.init f w strand in
  let effective_start := FeatureVsCoords.feature_py_start pi in
  let effective_end := FeatureVsCoords.feature_py_end pi in
  effective_start = (if strand then Feature.start f else Feature.end_ f + 1)
  ∧ effective_end = (if strand then Feature.end_ f else Feature.start f + 1)
  ∧ (FeatureVsCoords.is_contained pi = true
     ↔ Coordinate.start w <= effective_start < Coordinate.end_ w
       ∧ Coordinate.start w < effective_end <= Coordinate.end_ w)
  ∧ (effective_start < effective_end →
     (FeatureVsCoords.is_contained pi = true
      ↔ effective_start >= Coordinate.start w
        ∧ effective_end <= Coordinate.end_ w)).
Proof.
  intros pi effective_start effective_end.
  split; [reflexivity |]. split; [reflexivity |].
  assert (Hexact : FeatureVsCoords.is_contained pi = true
     ↔ Coordinate.start w <= effective_start < Coordinate.end_ w
       ∧ Coordinate.start w < effective_end <= Coordinate.end_ w).
  { unfold FeatureVsCoords.is_contained. fold effective_start effective_end.
    simpl. rewrite !andb_true_iff, !Z.leb_le, !Z.ltb_lt. tauto. }
  split; [exact Hexact |].
  intros Hne. rewrite Hexact. lia.
Qed.

Lemma is_contained_spec_witness :
  let chr1 := Coordinate.mk 0 "chr1" 0 10000 in
  let w := Coordinate.mk 1 "chr1" 1000 2000 in
  let f := Feature.mk 8 None 1499 1199 1499 false true true chr1 3 [3%nat] in
  let pi := FeatureVsCoords.init f w false in
  FeatureVsCoords.is_contained pi = true
  ↔ FeatureVsCoords.feature_py_start pi >= Coordinate.start w
    ∧ FeatureVsCoords.feature_py_end pi <= Coordinate.end_ w.
Proof.
  intros chr1 w f pi.
  apply (proj2 (proj2 (proj2 (is_contained_spec f w false)))).
  simpl. lia.
Defined.

(** C6, as the claim words it, fails for a feature that is empty or
    inverted: with start = end = 5 on the plus strand and the window
    [[5, 10)], the effective start is at or after [window.start] and the
    effective end is at or before [window.end], yet [is_contained] is
    false. *)
Lemma is_contained_needs_nonempty_feature :
  let chr1 := Coordinate.mk 0 "chr1" 0 10000 in
  let w := Coordinate.mk 1 "chr1" 5 10 in
  let f := Feature.mk 7 None 5 5 5 true true true chr1 3 [3%nat] in
  let pi := FeatureVsCoords.init f w true in
  (FeatureVsCoords.feature_py_start pi >= Coordinate.start w
   ∧ FeatureVsCoords.feature_py_end pi <= Coordinate.end_ w)
  ∧ FeatureVsCoords.is_contained pi = false
  ∧ ¬ (FeatureVsCoords.is_contained pi = true
       ↔ FeatureVsCoords.feature_py_start pi >= Coordinate.start w
         ∧ FeatureVsCoords.feature_py_end pi <= Coordinate.end_ w).
Proof.
  cbv zeta. simpl. split; [lia |]. split; [reflexivity |].
  intros [_ H]. unfold FeatureVsCoords.is_contained in H. simpl in H.
  assert (false = true) by (apply H; lia). discriminate.
Qed.

(** ** Running computations *)

Lemma bind_run {A B} (m : M A) (k : A → M B) (s : State) :
  (m ≫= k) s = match m s with
               | (Ok a, s') => k a s'
               | (Raise e, s') => (Raise e, s')
               end.
Proof. reflexivity. Qed.

Lemma get_feature_run (i : nat) (f : Feature.t) (s : State) :
  features s !! i = Some f → get_feature i s = (Ok f, s).
Proof.
  intros H. unfold get_feature. rewrite bind_run. unfold gets. by rewrite H.
Qed.

Lemma for_each_app {A} (body : A → M unit) (l1 l2 : list A) (s : State) :
  for_each body (l1 ++ l2) s
  = match for_each body l1 s with
    | (Ok _, s') => for_each body l2 s'
    | (Raise e, s') => (Raise e, s')
    end.
Proof.
  revert s. induction l1 as [| x l1 IH]; intros s; [done |].
  simpl. rewrite !bind_run. destruct (body x s) as [[[] | e] s']; [| done].
  apply IH.
Qed.

(** ** The spatial index *)

Lemma load_to_intervaltree_run (i : nat) (f : Feature.t) (s : State) :
  features s !! i = Some f →
  let seqid := Coordinate.seqid (Feature.coordinate f) in
  let iv := Interval.mk (Feature.position f) (Feature.position f + 1) i in
  let tree := default [] (interval_trees s !! seqid) in
  load_to_intervaltree i s
  = (Ok tt,
     set_interval_trees
       (<[seqid := if decide (iv ∈ tree) then tree else tree ++ [iv]]>
          (interval_trees s)) s).
Proof.
  intros H seqid iv tree. unfold load_to_intervaltree.
  rewrite bind_run, (get_feature_run _ _ _ H). rewrite bind_run.
  unfold gets, IntervalTree.addi. fold seqid iv tree.
  destruct (decide (iv ∈ tree)); [done |].
  replace (Feature.position f >=? Feature.position f + 1) with false; [done |].
  symmetry. rewrite Z.geb_leb. apply Z.leb_gt. lia.
Qed.

(** What [fill_intervaltrees] leaves in the dictionary: the old intervals,
    and one unit interval per loaded feature, under its sequence id. *)
Lemma fill_intervaltrees_run (ids : list nat) (s : State) :
  (∀ i, i ∈ ids → is_Some (features s !! i)) →
  ∃ trees,
    fill_intervaltrees ids s = (Ok tt, set_interval_trees trees s)
    ∧ (ids ≠ [] → trees ≠ ∅)
    ∧ (ids = [] → trees = interval_trees s)
    ∧ ∀ seqid iv,
        iv ∈ default [] (trees !! seqid)
        ↔ iv ∈ default [] (interval_trees s !! seqid)
          ∨ ∃ i f, i ∈ ids ∧ features s !! i = Some f
                   ∧ Coordinate.seqid (Feature.coordinate f) = seqid
                   ∧ iv = Interval.mk (Feature.position f)
                            (Feature.position f + 1) i.
Proof.
  unfold fill_intervaltrees. revert s.
  induction ids as [| i ids IH]; intros s Hin.
  - exists (interval_trees s). split; [by destruct s |].
    split; [done |]. split; [done |]. intros seqid iv. split; [tauto |].
    intros [? | (i & f & []%elem_of_nil & _)]; done.
  - destruct (Hin i) as [f Hf]; [by left |].
    simpl. rewrite bind_run, (load_to_intervaltree_run _ _ _ Hf).
    set (sid := Coordinate.seqid (Feature.coordinate f)).
    set (iv0 := Interval.mk (Feature.position f) (Feature.position f + 1) i).
    set (tree := default [] (interval_trees s !! sid)).
    set (tree' := if decide (iv0 ∈ tree) then tree else tree ++ [iv0]).
    set (s1 := set_interval_trees (<[sid := tree']> (interval_trees s)) s).
    destruct (IH s1) as (trees & Hrun & Hne & Hnil & Hchar).
    { intros j Hj. apply Hin. by right. }
    exists trees. split; [by rewrite Hrun |]. split.
    { intros _. destruct ids as [| j ids'].
      - rewrite Hnil by done. simpl. apply insert_non_empty.
      - by apply Hne. }
    split; [done |].
    intros seqid iv. rewrite Hchar. simpl.
    assert (Htree' : ∀ x, x ∈ tree' ↔ x ∈ tree ∨ x = iv0).
    { intros x. unfold tree'. destruct (decide (iv0 ∈ tree)).
      - split; [tauto | intros [? | ->]; done].
      - rewrite elem_of_app, list_elem_of_singleton. tauto. }
    split.
    + intros [Hold | (j & g & Hj & Hg & Hsid & ->)].
      * destruct (decide (sid = seqid)) as [<- | Hneq].
        -- rewrite lookup_insert_eq in Hold. simpl in Hold.
           apply Htree' in Hold as [? | ->]; [by left |].
           right. exists i, f. split; [by left | done].
        -- rewrite lookup_insert_ne in Hold by done. by left.
      * right. exists j, g. split; [by right | done].
    + intros [Hold | (j & g & Hj & Hg & Hsid & ->)].
      * left. destruct (decide (sid = seqid)) as [<- | Hneq].
        -- rewrite lookup_insert_eq. simpl. apply Htree'. by left.
        -- by rewrite lookup_insert_ne by done.
      * apply elem_of_cons in Hj as [-> | Hj].
        -- left. assert (g = f) as -> by congruence. fold sid in Hsid.
           subst seqid. rewrite lookup_insert_eq. simpl. apply Htree'.
           by right.
        -- right. exists j, g. done.
Qed.

Lemma on_strand_run (strand : bool) (ivs : list Interval.t) (s : State) :
  (∀ iv, iv ∈ ivs → is_Some (features s !! Interval.data iv)) →
  ∃ out,
    on_strand strand ivs s = (Ok out, s)
    ∧ ∀ i, i ∈ out
           ↔ ∃ iv f, iv ∈ ivs ∧ Interval.data iv = i
                     ∧ features s !! i = Some f
                     ∧ Feature.is_plus_strand f = strand.
Proof.
  induction ivs as [| x ivs IH]; intros Hin.
  - exists []. split; [done |]. intros i. split; [by intros ?%elem_of_nil |].
    by intros (iv & f & ?%elem_of_nil & _).
  - destruct (Hin x) as [f Hf]; [by left |].
    destruct IH as (out & Hrun & Hout); [intros iv Hiv; apply Hin; by right |].
    simpl. rewrite bind_run, (get_feature_run _ _ _ Hf), bind_run, Hrun.
    eexists. split; [reflexivity |].
    intros i. destruct (Bool.eqb (Feature.is_plus_strand f) strand) eqn:E.
    + apply Bool.eqb_prop in E. rewrite elem_of_cons, Hout. split.
      * intros [-> | (iv & g & Hiv & Hd & Hg & Hs)].
        -- exists x, f. split; [by left | done].
        -- exists iv, g. split; [by right | done].
      * intros (iv & g & Hiv & Hd & Hg & Hs).
        apply elem_of_cons in Hiv as [-> | Hiv]; [by left |].
        right. by exists iv, g.
    + rewrite Hout. split.
      * intros (iv & g & Hiv & Hd & Hg & Hs). exists iv, g.
        split; [by right | done].
      * intros (iv & g & Hiv & Hd & Hg & Hs).
        apply elem_of_cons in Hiv as [-> | Hiv]; [| by exists iv, g].
        assert (g = f) as -> by congruence.
        rewrite Hs in E. by destruct strand.
Qed.

Lemma elem_of_overlap (b e : Z) (tree : list Interval.t) (iv : Interval.t) :
  iv ∈ IntervalTree.overlap b e tree
  ↔ iv ∈ tree ∧ b < e ∧ Interval.begin iv < e ∧ b < Interval.end_ iv.
Proof.
  unfold IntervalTree.overlap. destruct (b >=? e) eqn:E.
  - rewrite Z.geb_leb, Z.leb_le in E. split; [by intros ?%elem_of_nil | lia].
  - rewrite Z.geb_leb, Z.leb_gt in E.
    rewrite (list_elem_of_In (List.filter _ _)), filter_In.
    rewrite <- list_elem_of_In, andb_true_iff, !Z.ltb_lt. tauto.
Qed.

(** C8, as the code has it.  After [fill_intervaltrees] has loaded the
    features [ids] into an empty dictionary, [get_features_from_slice]
    returns exactly the loaded features of the requested sequence whose
    strand is the requested one and whose [position] lies in
    [[start, end)]: the index holds one unit interval per feature, at its
    position, and knows nothing of the feature's extent. *)
Theorem get_features_from_slice_after_fill (ids : list nat) (s : State)
    (seqid : string) (start end_ : Z) (strand : bool) :
  interval_trees s = ∅ →
  ids ≠ [] →
  (∀ i, i ∈ ids → is_Some (features s !! i)) →
  ∃ s' out,
    fill_intervaltrees ids s = (Ok tt, s')
    ∧ get_features_from_slice seqid start end_ strand s' = (Ok out, s')
    ∧ ∀ i, i ∈ out
           ↔ i ∈ ids
             ∧ ∃ f, features s !! i = Some f
                    ∧ Coordinate.seqid (Feature.coordinate f) = seqid
                    ∧ Feature.is_plus_strand f = strand
                    ∧ start <= Feature.position f < end_.
Proof.
  intros Hempty Hids Hin.
  destruct (fill_intervaltrees_run ids s Hin) as (trees & Hrun & Hne & _ & Hchar).
  specialize (Hne Hids).
  exists (set_interval_trees trees s). rewrite Hrun.
  unfold get_features_from_slice. rewrite bind_run. unfold gets. simpl.
  destruct (decide (trees = ∅)) as [? | _]; [done |].
  assert (Hloaded : ∀ iv, iv ∈ default [] (trees !! seqid) →
            ∃ i f, i ∈ ids ∧ features s !! i = Some f
                   ∧ Coordinate.seqid (Feature.coordinate f) = seqid
                   ∧ iv = Interval.mk (Feature.position f)
                            (Feature.position f + 1) i).
  { intros iv Hiv. apply Hchar in Hiv as [Hold | ?]; [| done].
    rewrite Hempty, lookup_empty in Hold. by apply elem_of_nil in Hold. }
  destruct (trees !! seqid) as [tree |] eqn:Htree; simpl in Hloaded.
  - destruct (on_strand_run strand (IntervalTree.overlap start end_ tree)
                (set_interval_trees trees s)) as (out & Hout & Hmem).
    { intros iv [Hiv _]%elem_of_overlap.
      destruct (Hloaded iv Hiv) as (i & f & _ & Hf & _ & ->). by exists f. }
    exists out. split; [done |]. split; [done |].
    intros i. rewrite Hmem. simpl. split.
    + intros (iv & f & [Hiv Hov]%elem_of_overlap & Hd & Hf & Hs).
      destruct (Hloaded iv Hiv) as (j & g & Hj & Hg & Hsid & ->).
      simpl in Hd, Hov. subst j. assert (g = f) as -> by congruence.
      split; [done |]. exists f. repeat split; try done; lia.
    + intros (Hi & f & Hf & Hsid & Hs & Hpos).
      exists (Interval.mk (Feature.position f) (Feature.position f + 1) i), f.
      split; [| done]. apply elem_of_overlap. split; [| simpl; lia].
      specialize (Hchar seqid
        (Interval.mk (Feature.position f) (Feature.position f + 1) i)).
      rewrite Htree in Hchar. simpl in Hchar. apply Hchar. right.
      by exists i, f.
  - exists []. split; [done |]. split; [done |].
    intros i. split; [by intros ?%elem_of_nil |].
    intros (Hi & f & Hf & Hsid & _). exfalso.
    specialize (Hchar seqid
      (Interval.mk (Feature.position f) (Feature.position f + 1) i)).
    rewrite Htree in Hchar. simpl in Hchar.
    eapply elem_of_nil, Hchar. right. by exists i, f.
Qed.

Lemma get_features_from_slice_after_fill_witness :
  let chr1 := Coordinate.mk 0 "chr1" 0 10000 in
  let f1 := Feature.mk 1 None 1500 1600 1500 true true true chr1 3 [3%nat] in
  let f2 := Feature.mk 2 None 2500 2600 2500 true true true chr1 3 [3%nat] in
  let s := mkState (<[1%nat := f1]> (<[2%nat := f2]> ∅)) ∅ 3 ∅ [] [] [] 0 0
             [] None in
  ∃ s' out,
    fill_intervaltrees [1%nat; 2%nat] s = (Ok tt, s')
    ∧ get_features_from_slice "chr1" 1000 2000 true s' = (Ok out, s')
    ∧ ∀ i, i ∈ out
           ↔ i ∈ [1%nat; 2%nat]
             ∧ ∃ f, features s !! i = Some f
                    ∧ Coordinate.seqid (Feature.coordinate f) = "chr1"
                    ∧ Feature.is_plus_strand f = true
                    ∧ 1000 <= Feature.position f < 2000.
Proof.
  intros chr1 f1 f2 s.
  apply (get_features_from_slice_after_fill [1%nat; 2%nat] s "chr1" 1000 2000
           true).
  - reflexivity.
  - discriminate.
  - intros i Hi.
    repeat (apply elem_of_cons in Hi as [-> | Hi];
            [eexists; vm_compute; reflexivity |]).
    by apply elem_of_nil in Hi.
Defined.

(** C8, as the claim words it, fails.  The plus-strand feature
    [[500, 2500)] meets the window [[1000, 2000)], but its index entry is the
    unit interval at position 500, so the query does not return it. *)
Lemma extent_overlap_not_returned :
  let chr1 := Coordinate.mk 0 "chr1" 0 10000 in
  let f := Feature.mk 1 None 500 2500 500 true true true chr1 3 [3%nat] in
  let s := mkState (<[1%nat := f]> ∅) ∅ 2 ∅ [] [] [] 0 0 [] None in
  let loaded := snd (fill_intervaltrees [1%nat] s) in
  fst (fill_intervaltrees [1%nat] s) = Ok tt
  ∧ interval_trees loaded !! "chr1" = Some [Interval.mk 500 501 1]
  ∧ fst (get_features_from_slice "chr1" 1000 2000 true loaded) = Ok []
  ∧ Feature.is_plus_strand f = true
  ∧ Feature.start f < 2000 ∧ 1000 < Feature.end_ f.
Proof. cbv zeta. repeat split; vm_compute; reflexivity. Qed.

(** C10.  With the empty dictionary [get_features_from_slice] raises
    [ValueError]; with a dictionary that is not empty but has no tree for
    the sequence id it returns the empty list and raises nothing. *)
Theorem get_features_from_slice_without_tree (seqid : string)
    (start end_ : Z) (strand : bool) (s : State) :
  (interval_trees s = ∅ →
   get_features_from_slice seqid start end_ strand s = (Raise ValueError, s))
  ∧ (interval_trees s ≠ ∅ →
     interval_trees s !! seqid = None →
     get_features_from_slice seqid start end_ strand s = (Ok [], s)).
Proof.
  unfold get_features_from_slice. rewrite bind_run. unfold gets. split.
  - intros ->. by rewrite decide_True.
  - intros Hne Hnone. by rewrite decide_False, Hnone.
Qed.

Lemma get_features_from_slice_without_tree_witness :
  let s0 := mkState ∅ ∅ 0 ∅ [] [] [] 0 0 [] None in
  let s1 := mkState ∅ ∅ 0 (<["chr1" := [Interval.mk 500 501 1]]> ∅)
              [] [] [] 0 0 [] None in
  get_features_from_slice "chr1" 1000 2000 true s0 = (Raise ValueError, s0)
  ∧ get_features_from_slice "chr2" 1000 2000 true s1 = (Ok [], s1).
Proof.
  intros s0 s1. split.
  - apply (get_features_from_slice_without_tree "chr1" 1000 2000 true s0).
    reflexivity.
  - apply (get_features_from_slice_without_tree "chr2" 1000 2000 true s1).
    + apply insert_non_empty.
    + vm_compute. reflexivity.
Defined.

(** ** The lazily created downstream piece *)

Lemma keeps_ret {A} (a : A) : keeps_piece_view (mret a : M A).
Proof. by intros s. Qed.

Lemma keeps_throw {A} (e : exn) : keeps_piece_view (mthrow e : M A).
Proof. by intros s. Qed.

Lemma keeps_gets {A} (f : State → A) : keeps_piece_view (gets f).
Proof. by intros s. Qed.

Lemma keeps_modify (f : State → State) :
  (∀ s, piece_view (f s) = piece_view s) → keeps_piece_view (modify f).
Proof. intros H s. apply H. Qed.

Lemma keeps_bind {A B} (m : M A) (k : A → M B) :
  keeps_piece_view m → (∀ a, keeps_piece_view (k a)) →
  keeps_piece_view (m ≫= k).
Proof.
  intros Hm Hk s. rewrite bind_run. specialize (Hm s).
  destruct (m s) as [[a | e] s1]; simpl in *; [| done].
  by rewrite Hk.
Qed.

Lemma keeps_for_each {A} (body : A → M unit) (l : list A) :
  (∀ x, keeps_piece_view (body x)) → keeps_piece_view (for_each body l).
Proof.
  intros Hbody. induction l as [| x l IH]; [apply keeps_ret |].
  simpl. apply keeps_bind; [apply Hbody | by intros _].
Qed.

Lemma keeps_assert (b : bool) : keeps_piece_view (assert b).
Proof. destruct b; [apply keeps_ret | apply keeps_throw]. Qed.

Ltac keeps_step :=
  first
    [ apply keeps_ret | apply keeps_throw | apply keeps_gets
    | apply keeps_assert
    | apply keeps_modify; intros ?; reflexivity
    | apply keeps_for_each; intros ?
    | apply keeps_bind; [| intros ?]
    | match goal with
      | |- keeps_piece_view (match ?x with _ => _ end) => destruct x
      end ].

Lemma keeps_get_feature (i : nat) : keeps_piece_view (get_feature i).
Proof. unfold get_feature. repeat keeps_step. Qed.

Lemma keeps_execute_so_far : keeps_piece_view execute_so_far.
Proof.
  apply keeps_modify. intros s.
  destruct (piece_swaps s) eqn:E1; destruct (coord_swaps s) eqn:E2;
    simpl; rewrite ?E2; reflexivity.
Qed.

Lemma keeps_load_to_intervaltree (i : nat) :
  keeps_piece_view (load_to_intervaltree i).
Proof.
  unfold load_to_intervaltree.
  apply keeps_bind; [apply keeps_get_feature | intros f].
  cbv zeta. repeat keeps_step.
Qed.

Lemma keeps_new_handled_data (template : nat) (start : Z)
    (given_id : option string) (coordinate : Coordinate.t) (flag : bool) :
  keeps_piece_view (new_handled_data template start given_id coordinate flag).
Proof.
  unfold new_handled_data, fresh.
  apply keeps_bind; [apply keeps_get_feature | intros f].
  cbv zeta. repeat keeps_step.
Qed.

Lemma keeps_swap_piece (fh new_piece old_piece : nat) :
  keeps_piece_view (swap_piece fh new_piece old_piece).
Proof.
  unfold swap_piece.
  apply keeps_bind; [apply keeps_get_feature | intros f].
  repeat keeps_step.
Qed.

Lemma keeps_set_status_downstream_border (new_coords old_coords : Coordinate.t)
    (is_plus_strand : bool) (template_feature new_piece old_piece : nat) :
  keeps_piece_view
    (set_status_downstream_border new_coords old_coords is_plus_strand
       template_feature new_piece old_piece).
Proof.
  unfold set_status_downstream_border. cbv zeta.
  apply keeps_bind; [apply keeps_get_feature | intros t].
  apply keeps_bind; [apply keeps_assert | intros _].
  apply keeps_bind; [apply keeps_new_handled_data | intros d].
  apply keeps_bind; [apply keeps_load_to_intervaltree | intros _].
  apply keeps_bind; [by apply keeps_modify | intros _].
  apply keeps_swap_piece.
Qed.

Section OnePiece.
Variable pieces0 : gmap nat TranscribedPiece.t.
Variables sl tr : nat.

Abbreviation Inv := (one_piece_invariant pieces0 sl tr).

Lemma preserves_keeps {A} (m : M A) : keeps_piece_view m → preserves Inv m.
Proof.
  intros Hm s HI. specialize (Hm s). unfold piece_view in Hm.
  injection Hm as Hp Hh Hd Hs Ht.
  unfold one_piece_invariant in *. by rewrite Hp, Hh, Hd, Hs, Ht.
Qed.

Lemma preserves_bind {A B} (P : State → Prop) (m : M A) (k : A → M B) :
  preserves P m → (∀ a, preserves P (k a)) → preserves P (m ≫= k).
Proof.
  intros Hm Hk s HP. rewrite bind_run. specialize (Hm s HP).
  destruct (m s) as [[a | e] s1]; simpl in *; [| done].
  by apply Hk.
Qed.

Lemma preserves_for_each {A} (P : State → Prop) (body : A → M unit)
    (l : list A) :
  (∀ x, preserves P (body x)) → preserves P (for_each body l).
Proof.
  intros Hbody. induction l as [| x l IH]; [by intros s |].
  simpl. apply preserves_bind; [apply Hbody | by intros _].
Qed.

Lemma preserves_downstream_piece : preserves Inv downstream_piece.
Proof.
  intros s (Hsl & Htr & HI). unfold downstream_piece.
  rewrite bind_run. unfold gets.
  destruct (_downstream_piece s) as [p |] eqn:Hdp.
  { simpl. unfold one_piece_invariant. rewrite Hdp. tauto. }
  destruct HI as [(Hh & _ & Hp) | (p & _ & ? & _)]; [| congruence].
  simpl. unfold one_piece_invariant. simpl.
  rewrite Hsl, Htr, Hh, Hp. split; [done |]. split; [done |].
  right. by exists (next_id s).
Qed.

Lemma preserves_walk_step (nc : Coordinate.t) (ip : bool) (loc : Locals)
    (st : Step) :
  preserves Inv (walk_step nc ip loc st).
Proof.
  unfold walk_step.
  destruct (aligned_features st) as [| f0_ref rest];
    [apply preserves_keeps, keeps_throw |].
  apply preserves_bind; [apply preserves_keeps, keeps_get_feature |].
  intros f0. cbv zeta.
  destruct (position_category (FeatureVsCoords.init f0 nc ip))
    as [[] |].
  - apply preserves_keeps, keeps_ret.
  - apply preserves_keeps, keeps_ret.
  - apply preserves_keeps, keeps_ret.
  - apply preserves_keeps.
    apply keeps_bind; [| intros _; apply keeps_ret].
    apply keeps_for_each. intros x.
    apply keeps_bind; [apply keeps_get_feature | intros f].
    by apply keeps_modify.
  - apply preserves_bind; [apply preserves_downstream_piece | intros p].
    apply preserves_keeps.
    apply keeps_bind; [apply keeps_execute_so_far | intros _].
    apply keeps_bind; [| intros _; apply keeps_ret].
    apply keeps_for_each. intros x.
    apply keeps_bind; [apply keeps_get_feature | intros f].
    apply keeps_set_status_downstream_border.
  - destruct (piece_at_border loc) as [border |];
      [| apply preserves_keeps, keeps_ret].
    apply preserves_bind; [| intros _; apply preserves_keeps, keeps_ret].
    destruct (decide (piece st = border));
      [| apply preserves_keeps, keeps_ret].
    apply preserves_for_each. intros x.
    apply preserves_bind; [apply preserves_downstream_piece | intros p].
    apply preserves_keeps.
    apply keeps_bind; [apply keeps_get_feature | intros f].
    by apply keeps_modify.
  - apply preserves_keeps, keeps_throw.
Qed.

Lemma preserves_walk_loop (nc : Coordinate.t) (ip : bool) (walk : list Step)
    (loc : Locals) :
  preserves Inv (walk_loop nc ip walk loc).
Proof.
  revert loc. induction walk as [| st walk IH]; intros loc; [by intros s |].
  simpl. apply preserves_bind; [apply preserves_walk_step | apply IH].
Qed.

Lemma preserves_modify4new_slice (nc : Coordinate.t) (ip : bool)
    (walk : list Step) :
  preserves Inv (modify4new_slice nc ip walk).
Proof.
  unfold modify4new_slice.
  apply preserves_bind; [apply preserves_walk_loop | intros loc].
  destruct (negb (seen_one_overlap loc)); by intros s.
Qed.

End OnePiece.

(** C9.  A trimmer run, from the state [__init__] leaves, on any walk and
    however it ends, has made no piece at all or exactly one: its
    [handlers] list is empty or holds that one piece, which is the cached
    [_downstream_piece] and the only addition to the piece table.  The
    property creates the piece on the first access only: a second access
    returns the same piece and changes nothing. *)
Theorem at_most_one_downstream_piece (new_coords : Coordinate.t)
    (is_plus_strand : bool) (walk : list Step) (transcript super_locus : nat)
    (s : State) :
  let s0 := TranscriptTrimmer_init transcript super_locus s in
  let s' := snd (modify4new_slice new_coords is_plus_strand walk s0) in
  ((handlers s' = [] ∧ _downstream_piece s' = None ∧ pieces s' = pieces s)
   ∨ ∃ p, handlers s' = [p] ∧ _downstream_piece s' = Some p
          ∧ pieces s'
            = <[p := TranscribedPiece.mk p super_locus transcript]> (pieces s))
  ∧ (length (handlers s') ≤ 1)%nat
  ∧ ∀ s1 : State, ∃ p s2,
      downstream_piece s1 = (Ok p, s2)
      ∧ _downstream_piece s2 = Some p
      ∧ downstream_piece s2 = (Ok p, s2).
Proof.
  intros s0 s'.
  assert (HI : one_piece_invariant (pieces s) super_locus transcript s').
  { apply preserves_modify4new_slice. unfold one_piece_invariant. simpl.
    tauto. }
  destruct HI as (_ & _ & HI). split; [exact HI |]. split.
  { destruct HI as [(-> & _) | (p & -> & _)]; simpl; lia. }
  intros s1. unfold downstream_piece. rewrite bind_run. unfold gets.
  destruct (_downstream_piece s1) as [p |] eqn:Hdp.
  - exists p, s1. rewrite bind_run. unfold gets. by rewrite Hdp.
  - eexists _, _. split; [reflexivity |]. split; reflexivity.
Qed.

(** ** When the walk ends with [NoFeaturesInSliceError] *)

Lemma raises_ret {A} (E : exn → Prop) (a : A) : raises_in E (mret a : M A).
Proof. by intros s e. Qed.

Lemma raises_throw {A} (E : exn → Prop) (e : exn) :
  E e → raises_in E (mthrow e : M A).
Proof. intros He s e' [= <-]. exact He. Qed.

Lemma raises_gets {A} (E : exn → Prop) (f : State → A) :
  raises_in E (gets f).
Proof. by intros s e. Qed.

Lemma raises_modify (E : exn → Prop) (f : State → State) :
  raises_in E (modify f).
Proof. by intros s e. Qed.

Lemma raises_bind {A B} (E : exn → Prop) (m : M A) (k : A → M B) :
  raises_in E m → (∀ a, raises_in E (k a)) → raises_in E (m ≫= k).
Proof.
  intros Hm Hk s e. rewrite bind_run. specialize (Hm s).
  destruct (m s) as [[a | e'] s1]; simpl in *; [apply Hk |].
  intros [= <-]. by apply Hm.
Qed.

Lemma raises_for_each {A} (E : exn → Prop) (body : A → M unit) (l : list A) :
  (∀ x, raises_in E (body x)) → raises_in E (for_each body l).
Proof.
  intros Hbody. induction l as [| x l IH]; [apply raises_ret |].
  simpl. apply raises_bind; [apply Hbody | by intros _].
Qed.

Ltac raises_step :=
  first
    [ apply raises_ret | apply raises_gets | apply raises_modify
    | apply raises_throw; discriminate
    | apply raises_for_each; intros ?
    | apply raises_bind; [| intros ?]
    | match goal with
      | |- raises_in _ (match ?x with _ => _ end) => destruct x
      | |- raises_in _ (if ?x then _ else _) => destruct x
      end ].

(** The loop of [modify4new_slice] never raises [NoFeaturesInSliceError]
    itself: that exception comes from the test after the loop only. *)
Lemma walk_loop_raises (nc : Coordinate.t) (ip : bool) (walk : list Step)
    (loc : Locals) :
  raises_in (λ e, e ≠ NoFeaturesInSliceError) (walk_loop nc ip walk loc).
Proof.
  revert loc. induction walk as [| st walk IH]; intros loc;
    [apply raises_ret |].
  simpl. apply raises_bind; [| apply IH].
  unfold walk_step, set_status_downstream_border, new_handled_data,
    load_to_intervaltree, swap_piece, downstream_piece, mk_new_piece, fresh,
    execute_so_far, get_feature, assert.
  cbv zeta. repeat raises_step.
Qed.

(** A step whose branch is neither Contained nor OverlapsDownstream, taken
    before any border was met, changes neither the state nor the locals. *)
Lemma walk_step_quiet (nc : Coordinate.t) (ip : bool) (st : Step) (s : State)
    (c : Category) :
  step_category nc ip s st = Some c →
  c ≠ Contained → c ≠ OverlapsDownstream →
  walk_step nc ip (mkLocals false None) st s = (Ok (mkLocals false None), s).
Proof.
  unfold step_category, walk_step. intros Hc HnC HnOD.
  destruct (aligned_features st) as [| f0_ref rest]; [done |].
  destruct (features s !! f0_ref) as [f0 |] eqn:Hf0; [| done].
  rewrite bind_run, (get_feature_run _ _ _ Hf0). cbv zeta. rewrite Hc.
  by destruct c.
Qed.

(** A step that ends normally never resets [seen_one_overlap]. *)
Lemma walk_step_seen_stays (nc : Coordinate.t) (ip : bool) (loc loc' : Locals)
    (st : Step) (s s' : State) :
  walk_step nc ip loc st s = (Ok loc', s') →
  seen_one_overlap loc = true → seen_one_overlap loc' = true.
Proof.
  unfold walk_step. intros Hrun Hseen.
  destruct (aligned_features st) as [| f0_ref rest]; [done |].
  rewrite bind_run in Hrun.
  destruct (get_feature f0_ref s) as [[f0 | e] s1]; [| done].
  cbv zeta in Hrun.
  destruct (position_category (FeatureVsCoords.init f0 nc ip)) as [[] |];
    try (by injection Hrun as <- _).
  - rewrite bind_run in Hrun.
    destruct (for_each _ _ s1) as [[[] | e] s2]; [| done].
    by injection Hrun as <- _.
  - rewrite bind_run in Hrun.
    destruct (downstream_piece s1) as [[p | e] s2]; [| done].
    rewrite bind_run in Hrun.
    destruct (execute_so_far s2) as [[[] | e] s3]; [| done].
    rewrite bind_run in Hrun.
    destruct (for_each _ _ s3) as [[[] | e] s4]; [| done].
    by injection Hrun as <- _.
  - destruct (piece_at_border loc) as [border |];
      [| by injection Hrun as <- _].
    rewrite bind_run in Hrun.
    match type of Hrun with
    | context [match ?m s1 with _ => _ end] =>
        destruct (m s1) as [[[] | e] s2]; [| done]
    end.
    by injection Hrun as <- _.
  - done.
Qed.

Lemma walk_loop_seen_stays (nc : Coordinate.t) (ip : bool) (walk : list Step)
    (loc loc' : Locals) (s s' : State) :
  walk_loop nc ip walk loc s = (Ok loc', s') →
  seen_one_overlap loc = true → seen_one_overlap loc' = true.
Proof.
  revert loc s. induction walk as [| st walk IH]; intros loc s Hrun Hseen.
  - by injection Hrun as <- _.
  - simpl in Hrun. rewrite bind_run in Hrun.
    destruct (walk_step nc ip loc st s) as [[loc1 | e] s1] eqn:Hstep;
      [| done].
    eapply IH; [exact Hrun |]. by eapply walk_step_seen_stays.
Qed.

(** A step whose branch is Contained or OverlapsDownstream sets
    [seen_one_overlap] when it ends normally. *)
Lemma walk_step_overlap_seen (nc : Coordinate.t) (ip : bool) (loc loc' : Locals)
    (st : Step) (s s' : State) (c : Category) :
  step_category nc ip s st = Some c →
  c = Contained ∨ c = OverlapsDownstream →
  walk_step nc ip loc st s = (Ok loc', s') →
  seen_one_overlap loc' = true.
Proof.
  unfold step_category, walk_step. intros Hc Hov Hrun.
  destruct (aligned_features st) as [| f0_ref rest]; [done |].
  destruct (features s !! f0_ref) as [f0 |] eqn:Hf0; [| done].
  rewrite bind_run, (get_feature_run _ _ _ Hf0) in Hrun.
  cbv zeta in Hrun. rewrite Hc in Hrun.
  destruct Hov as [-> | ->].
  - rewrite bind_run in Hrun.
    destruct (for_each _ _ s) as [[[] | e] s2]; [| done].
    by injection Hrun as <- _.
  - rewrite bind_run in Hrun.
    destruct (downstream_piece s) as [[p | e] s2]; [| done].
    rewrite bind_run in Hrun.
    destruct (execute_so_far s2) as [[[] | e] s3]; [| done].
    rewrite bind_run in Hrun.
    destruct (for_each _ _ s3) as [[[] | e] s4]; [| done].
    by injection Hrun as <- _.
Qed.

Lemma step_category_not_overlap_dec (c : Category) :
  (c ≠ Contained ∧ c ≠ OverlapsDownstream)
  ∨ (c = Contained ∨ c = OverlapsDownstream).
Proof. destruct c; (left; split; discriminate) || (right; tauto). Qed.

Lemma walk_loop_quiet (nc : Coordinate.t) (ip : bool) (walk : list Step)
    (s : State) :
  (∀ st, st ∈ walk → is_Some (step_category nc ip s st)) →
  (∀ st, st ∈ walk →
     step_category nc ip s st ≠ Some Contained
     ∧ step_category nc ip s st ≠ Some OverlapsDownstream) →
  walk_loop nc ip walk (mkLocals false None) s
  = (Ok (mkLocals false None), s).
Proof.
  induction walk as [| st walk IH]; intros Hwf Hquiet; [done |].
  destruct (Hwf st) as [c Hc]; [by left |].
  destruct (Hquiet st) as [HnC HnOD]; [by left |].
  simpl. rewrite bind_run, (walk_step_quiet nc ip st s c Hc) by congruence.
  apply IH; intros st' Hst'; [apply Hwf | apply Hquiet]; by right.
Qed.

Lemma walk_loop_overlap_seen (nc : Coordinate.t) (ip : bool)
    (walk : list Step) (s s' : State) (loc' : Locals) :
  (∀ st, st ∈ walk → is_Some (step_category nc ip s st)) →
  walk_loop nc ip walk (mkLocals false None) s = (Ok loc', s') →
  seen_one_overlap loc' = false →
  ∀ st, st ∈ walk →
    step_category nc ip s st ≠ Some Contained
    ∧ step_category nc ip s st ≠ Some OverlapsDownstream.
Proof.
  induction walk as [| st walk IH]; intros Hwf Hrun Hseen st' Hst';
    [by apply elem_of_nil in Hst' |].
  destruct (Hwf st) as [c Hc]; [by left |].
  simpl in Hrun. rewrite bind_run in Hrun.
  destruct (step_category_not_overlap_dec c) as [[HnC HnOD] | Hov].
  - rewrite (walk_step_quiet nc ip st s c Hc HnC HnOD) in Hrun.
    apply elem_of_cons in Hst' as [-> | Hst'].
    + rewrite Hc. split; congruence.
    + apply IH; [intros x Hx; apply Hwf; by right | done..].
  - exfalso.
    destruct (walk_step nc ip (mkLocals false None) st s)
      as [[loc1 | e] s1] eqn:Hstep; [| done].
    pose proof (walk_step_overlap_seen _ _ _ _ _ _ _ _ Hc Hov Hstep) as H1.
    pose proof (walk_loop_seen_stays _ _ _ _ _ _ _ Hrun H1). congruence.
Qed.

(** C3.  On a walk whose every step has a first aligned feature,
    [modify4new_slice] raises [NoFeaturesInSliceError] exactly when no step
    of the walk takes the Contained or the OverlapsDownstream branch.  (The
    steps are classified on the state the run starts from: until such a
    branch is taken the run changes nothing, so this is also what each step
    sees when it is reached.) *)
Theorem modify4new_slice_NoFeaturesInSliceError (new_coords : Coordinate.t)
    (is_plus_strand : bool) (walk : list Step) (s : State) :
  (∀ st, st ∈ walk → is_Some (step_category new_coords is_plus_strand s st)) →
  fst (modify4new_slice new_coords is_plus_strand walk s)
  = Raise NoFeaturesInSliceError
  ↔ ∀ st, st ∈ walk →
      step_category new_coords is_plus_strand s st ≠ Some Contained
      ∧ step_category new_coords is_plus_strand s st
        ≠ Some OverlapsDownstream.
Proof.
  intros Hwf. unfold modify4new_slice. rewrite bind_run. split.
  - destruct (walk_loop new_coords is_plus_strand walk (mkLocals false None) s)
      as [[loc | e] s'] eqn:Hrun.
    + destruct (seen_one_overlap loc) eqn:Hseen; [done |]. intros _.
      by eapply walk_loop_overlap_seen.
    + simpl. intros [= ->]. exfalso.
      apply (walk_loop_raises new_coords is_plus_strand walk
               (mkLocals false None) s NoFeaturesInSliceError);
        [by rewrite Hrun | done].
  - intros Hquiet. by rewrite walk_loop_quiet.
Qed.

Lemma modify4new_slice_NoFeaturesInSliceError_witness :
  let s := example_session
             (<[1%nat := plus_feature 1 0 500]>
                (<[2%nat := plus_feature 2 2500 2600]> ∅)) in
  let walk := [mkStep [1%nat] 3; mkStep [2%nat] 3] in
  fst (modify4new_slice window_1000_2000 true walk s)
  = Raise NoFeaturesInSliceError
  ↔ ∀ st, st ∈ walk →
      step_category window_1000_2000 true s st ≠ Some Contained
      ∧ step_category window_1000_2000 true s st ≠ Some OverlapsDownstream.
Proof.
  intros s walk.
  apply (modify4new_slice_NoFeaturesInSliceError window_1000_2000 true walk s).
  intros st Hst.
  repeat (apply elem_of_cons in Hst as [-> | Hst];
          [eexists; vm_compute; reflexivity |]).
  by apply elem_of_nil in Hst.
Defined.

(** ** The split at a downstream border *)

Lemma remove_first_elem (x : nat) (l : list nat) :
  x ∈ l → ∃ linked, remove_first x l = Some linked.
Proof.
  induction l as [| y l IH]; [by intros ?%elem_of_nil |].
  intros Hx. simpl. destruct (decide (x = y)); [eauto |].
  apply elem_of_cons in Hx as [? | Hx]; [done |].
  destruct (IH Hx) as [linked ->]. eauto.
Qed.


Lemma remove_first_Some_elem (x : nat) (l linked : list nat) :
  remove_first x l = Some linked → x ∈ l.
Proof.
  revert linked. induction l as [| y l IH]; intros linked; [done |].
  simpl. destruct (decide (x = y)) as [-> | Hne]; [by left |].
  destruct (remove_first x l) as [l' |]; [| done].
  intros _. right. by eapply IH.
Qed.

Lemma new_handled_data_run (template : nat) (start : Z)
    (given_id : option string) (coordinate : Coordinate.t) (flag : bool)
    (t : Feature.t) (s : State) :
  features s !! template = Some t →
  new_handled_data template start given_id coordinate flag s
  = (Ok (next_id s),
     set_features
       (<[next_id s :=
            Feature.mk (next_id s) given_id start (Feature.end_ t)
              (Feature.position t) (Feature.is_plus_strand t) flag
              (Feature.end_is_biological_end t) coordinate
              (Feature.transcribed_piece t) (Feature.transcribed_pieces t)]>
          (features s))
       (set_next_id (S (next_id s)) s)).
Proof.
  intros Ht. unfold new_handled_data.
  rewrite bind_run, (get_feature_run _ _ _ Ht). reflexivity.
Qed.

Lemma swap_piece_run (fh new_piece old_piece : nat) (f : Feature.t)
    (linked : list nat) (s : State) :
  features s !! fh = Some f →
  remove_first old_piece (Feature.transcribed_pieces f) = Some linked →
  swap_piece fh new_piece old_piece s
  = (Ok tt,
     set_features
       (<[fh := Feature.set_transcribed_pieces (linked ++ [new_piece]) f]>
          (features s)) s).
Proof.
  intros Hf Hrm. unfold swap_piece.
  rewrite bind_run, (get_feature_run _ _ _ Hf), Hrm. reflexivity.
Qed.

Lemma ssdb_run (nc oc : Coordinate.t) (ip : bool) (tid p border : nat)
    (t : Feature.t) (linked : list nat) (s : State) :
  features s !! tid = Some t →
  remove_first border (Feature.transcribed_pieces t) = Some linked →
  features s !! next_id s = None →
  let n := next_id s in
  let cut := if ip then Coordinate.end_ nc else Coordinate.start nc - 1 in
  let sid := Coordinate.seqid oc in
  let iv := Interval.mk (Feature.position t) (Feature.position t + 1) n in
  let tree := default [] (interval_trees s !! sid) in
  ∃ s1,
    set_status_downstream_border nc oc ip tid p border s = (Ok tt, s1)
    ∧ features s1
      = <[n := Feature.mk n None cut (Feature.end_ t) (Feature.position t)
                (Feature.is_plus_strand t) false
                (Feature.end_is_biological_end t) oc
                (Feature.transcribed_piece t) (linked ++ [p])]>
          (<[tid := Feature.set_end_is_biological_end false
                      (Feature.set_end cut t)]> (features s))
    ∧ next_id s1 = S n
    ∧ interval_trees s1
      = <[sid := if decide (iv ∈ tree) then tree else tree ++ [iv]]>
          (interval_trees s).
Proof.
  intros Ht Hrm Hfresh n cut sid iv tree.
  unfold set_status_downstream_border. cbv zeta.
  rewrite bind_run, (get_feature_run _ _ _ Ht).
  rewrite bind_run.
  rewrite bool_decide_eq_true_2 by (by eapply remove_first_Some_elem).
  unfold assert. change ((mret () : M ()) s) with (Ok (), s). cbv beta iota.
  rewrite bind_run, (new_handled_data_run _ _ _ _ _ _ _ Ht).
  rewrite bind_run.
  erewrite load_to_intervaltree_run by (simpl; apply lookup_insert_eq).
  cbv zeta. rewrite bind_run. unfold modify at 1. cbv beta iota.
  erewrite swap_piece_run.
  2:{ simpl. rewrite lookup_alter_ne; [apply lookup_insert_eq |].
      intros Heq. first [rewrite Heq in Ht | rewrite <- Heq in Hfresh];
        congruence. }
  2:{ simpl. exact Hrm. }
  eexists. split; [reflexivity |]. simpl. split; [| done].
  fold n cut. apply map_eq. intros i.
  assert (Hne : tid ≠ n).
  { intros Heq. rewrite Heq in Ht. unfold n in Ht. congruence. }
  destruct (decide (i = n)) as [-> | Hin].
  { by rewrite !lookup_insert_eq. }
  rewrite !(lookup_insert_ne _ n) by done.
  destruct (decide (i = tid)) as [-> | Hit].
  - rewrite lookup_alter_eq, lookup_insert_ne, lookup_insert_eq, Ht by done.
    reflexivity.
  - rewrite lookup_alter_ne, !lookup_insert_ne by done. reflexivity.
Qed.

Section BorderLoop.
Variables (nc oc : Coordinate.t) (ip : bool) (f0_ref p border : nat).

Abbreviation cut :=
  (if ip then Coordinate.end_ nc else Coordinate.start nc - 1).

Abbreviation body :=
  (λ feature : nat,
     f0' ← get_feature f0_ref;
     set_status_downstream_border nc (Feature.coordinate f0') ip feature p
       border).

Lemma border_loop_run (tids : list nat) (s : State) :
  NoDup tids →
  (∀ tid, tid ∈ tids →
     ∃ t, features s !! tid = Some t
          ∧ border ∈ Feature.transcribed_pieces t) →
  (∀ i, (next_id s ≤ i)%nat → features s !! i = None) →
  (∃ f0c, features s !! f0_ref = Some f0c ∧ Feature.coordinate f0c = oc) →
  ∃ s',
    for_each body tids s = (Ok tt, s')
    ∧ next_id s' = (next_id s + length tids)%nat
    ∧ (∀ sid iv, iv ∈ default [] (interval_trees s !! sid) →
                 iv ∈ default [] (interval_trees s' !! sid))
    ∧ (∀ i, i ∉ tids → (i < next_id s)%nat →
            features s' !! i = features s !! i)
    ∧ ∀ k tid t, tids !! k = Some tid → features s !! tid = Some t →
        split_at_border s s' cut oc border p tid (next_id s + k)%nat t.
Proof.
  revert s. induction tids as [| tid rest IH]; intros s Hnd Hin Hfresh Hf0.
  { exists s. split; [done |]. split; [simpl; lia |]. split; [done |].
    split; [done |]. intros k tid t Hk. by rewrite lookup_nil in Hk. }
  apply NoDup_cons in Hnd as [Hnotin Hnd].
  destruct (Hin tid) as (t & Ht & Hborder); [by left |].
  destruct (remove_first_elem _ _ Hborder) as [linked Hrm].
  destruct Hf0 as (f0c & Hf0c & Hoc).
  destruct (ssdb_run nc oc ip tid p border t linked s Ht Hrm)
    as (s1 & Hrun1 & Hfeat1 & Hnext1 & Htrees1); [by apply Hfresh |].
  set (n := next_id s) in *.
  assert (Hlt : ∀ i x, features s !! i = Some x → (i < n)%nat).
  { intros i x Hi. destruct (decide (i < n)%nat); [done |].
    rewrite Hfresh in Hi by (unfold n in *; lia). done. }
  assert (Hsame : ∀ i, i ≠ tid → i ≠ n →
            features s1 !! i = features s !! i).
  { intros i ? ?. rewrite Hfeat1. by rewrite !lookup_insert_ne. }
  destruct (IH s1) as (s' & Hrun & Hnext & Hmono & Hkeep & Hsplit).
  { done. }
  { intros tid' Htid'. destruct (Hin tid') as (t' & Ht' & Hb'); [by right |].
    exists t'. split; [| done]. rewrite Hsame; [done | |].
    - intros ->. done.
    - intros ->. apply Hlt in Ht'. lia. }
  { intros i Hi. rewrite Hnext1 in Hi. rewrite Hsame; [| |lia].
    - apply Hfresh. unfold n in *. lia.
    - intros ->. apply Hlt in Ht. lia. }
  { destruct (decide (f0_ref = tid)) as [-> | Hne].
    - eexists. rewrite Hfeat1. rewrite lookup_insert_ne, lookup_insert_eq.
      + split; [done |]. simpl. congruence.
      + intros Heq. apply Hlt in Ht. lia.
    - exists f0c. split; [| done]. rewrite Hsame; [done.. |].
      intros ->. apply Hlt in Hf0c. lia. }
  exists s'. split.
  { simpl. rewrite bind_run.
    rewrite bind_run, (get_feature_run _ _ _ Hf0c), Hoc, Hrun1. exact Hrun. }
  split; [rewrite Hnext, Hnext1; simpl; lia |].
  assert (Hmono1 : ∀ sid iv, iv ∈ default [] (interval_trees s !! sid) →
            iv ∈ default [] (interval_trees s1 !! sid)).
  { intros sid iv Hiv. rewrite Htrees1.
    destruct (decide (Coordinate.seqid oc = sid)) as [<- | Hne].
    - rewrite lookup_insert_eq. simpl. case_decide; [done |].
      apply elem_of_app. by left.
    - by rewrite lookup_insert_ne. }
  split; [intros sid iv Hiv; by apply Hmono, Hmono1 |].
  split.
  { intros i Hi Hilt. rewrite Hkeep.
    - apply Hsame; [intros ->; apply Hi; by left | lia].
    - intros ?; apply Hi; by right.
    - rewrite Hnext1. lia. }
  intros k tid' t' Hk Ht'. destruct k as [| k].
  - injection Hk as <-. assert (t' = t) as -> by congruence.
    replace (n + 0)%nat with n by lia.
    split; [by apply Hfresh |]. exists linked. split; [done |].
    assert (Hn_rest : n ∉ rest).
    { intros Hn. destruct (Hin n) as (x & Hx & _); [by right |].
      apply Hlt in Hx. lia. }
    split; [| split].
    + rewrite Hkeep; [| done | rewrite Hnext1; lia].
      rewrite Hfeat1. by rewrite lookup_insert_eq.
    + rewrite Hkeep; [| done | rewrite Hnext1; apply Hlt in Ht; lia].
      rewrite Hfeat1. rewrite lookup_insert_ne, lookup_insert_eq; [done |].
      intros Heq. apply Hlt in Ht. lia.
    + apply Hmono. rewrite Htrees1, lookup_insert_eq. simpl.
      case_decide; [done |]. apply elem_of_app. right. by left.
  - simpl in Hk.
    assert (Htid'_rest : tid' ∈ rest) by (by eapply list_elem_of_lookup_2).
    assert (Ht1 : features s1 !! tid' = Some t').
    { rewrite Hsame; [done | |].
      - intros ->. done.
      - intros ->. apply Hlt in Ht'. lia. }
    destruct (Hsplit k tid' t' Hk Ht1) as (Hnew & linked' & Hrm' & H1 & H2 & H3).
    rewrite Hnext1 in Hnew, H1, H3.
    replace (n + S k)%nat with (S n + k)%nat by lia.
    split; [apply Hfresh; unfold n; lia |].
    exists linked'. done.
Qed.

End BorderLoop.

Lemma downstream_piece_run (s : State) :
  ∃ p s1,
    downstream_piece s = (Ok p, s1)
    ∧ _downstream_piece s1 = Some p
    ∧ features s1 = features s
    ∧ interval_trees s1 = interval_trees s
    ∧ super_locus s1 = super_locus s
    ∧ transcript s1 = transcript s
    ∧ ((_downstream_piece s = Some p ∧ s1 = s)
       ∨ (_downstream_piece s = None ∧ p = next_id s
          ∧ next_id s1 = S (next_id s)
          ∧ pieces s1
            = <[p := TranscribedPiece.mk p (super_locus s) (transcript s)]>
                (pieces s)
          ∧ handlers s1 = handlers s ++ [p])).
Proof.
  unfold downstream_piece. rewrite bind_run. unfold gets.
  destruct (_downstream_piece s) as [p |] eqn:Hdp.
  - exists p, s. repeat split; try done. by left.
  - eexists _, _. split; [reflexivity |]. simpl.
    repeat split; try done. right. done.
Qed.

Lemma execute_so_far_run (s : State) :
  ∃ s1,
    execute_so_far s = (Ok tt, s1)
    ∧ features s1 = features s
    ∧ next_id s1 = next_id s
    ∧ interval_trees s1 = interval_trees s
    ∧ piece_view s1 = piece_view s.
Proof.
  eexists. split; [reflexivity |].
  destruct (piece_swaps s) eqn:E1; destruct (coord_swaps s) eqn:E2;
    simpl; rewrite ?E1, ?E2; simpl; rewrite ?E2; done.
Qed.

(** The OverlapsDownstream branch, run on a group of distinct aligned
    features that are all linked to the piece of the first one. *)
Lemma walk_step_overlaps_downstream (nc : Coordinate.t) (ip : bool)
    (loc : Locals) (st : Step) (s : State) (f0 : Feature.t) :
  NoDup (aligned_features st) →
  (∃ f0_ref, head (aligned_features st) = Some f0_ref
             ∧ features s !! f0_ref = Some f0) →
  position_category (FeatureVsCoords.init f0 nc ip)
  = Some OverlapsDownstream →
  (∀ tid, tid ∈ aligned_features st →
     ∃ t, features s !! tid = Some t
          ∧ Feature.transcribed_piece f0 ∈ Feature.transcribed_pieces t) →
  (∀ i, (next_id s ≤ i)%nat → features s !! i = None) →
  ∃ s' p base,
    walk_step nc ip loc st s
    = (Ok (mkLocals true (Some (Feature.transcribed_piece f0))), s')
    ∧ _downstream_piece s' = Some p
    ∧ super_locus s' = super_locus s ∧ transcript s' = transcript s
    ∧ ((_downstream_piece s = Some p ∧ base = next_id s
        ∧ pieces s' = pieces s ∧ handlers s' = handlers s)
       ∨ (_downstream_piece s = None ∧ p = next_id s ∧ base = S (next_id s)
          ∧ pieces s'
            = <[p := TranscribedPiece.mk p (super_locus s) (transcript s)]>
                (pieces s)
          ∧ handlers s' = handlers s ++ [p]))
    ∧ ∀ k tid t,
        aligned_features st !! k = Some tid → features s !! tid = Some t →
        split_at_border s s'
          (if ip then Coordinate.end_ nc else Coordinate.start nc - 1)
          (Feature.coordinate f0) (Feature.transcribed_piece f0) p tid
          (base + k)%nat t.
Proof.
  intros Hnd (f0_ref & Hhead & Hf0) Hcat Hin Hfresh.
  unfold walk_step.
  destruct (aligned_features st) as [| f0_ref' rest] eqn:Hal; [done |].
  injection Hhead as ->.
  rewrite bind_run, (get_feature_run _ _ _ Hf0). cbv zeta. rewrite Hcat.
  rewrite bind_run.
  destruct (downstream_piece_run s)
    as (p & s1 & -> & Hdp1 & Hfeat1 & Htrees1 & Hsl1 & Htr1 & Hcase).
  cbv beta iota. rewrite bind_run.
  destruct (execute_so_far_run s1)
    as (s2 & -> & Hfeat2 & Hnext2 & Htrees2 & Hview2).
  cbv beta iota. rewrite bind_run.
  assert (Hnext_le : (next_id s ≤ next_id s2)%nat).
  { rewrite Hnext2. destruct Hcase as [[_ ->] | (_ & _ & -> & _)]; lia. }
  destruct (border_loop_run nc (Feature.coordinate f0) ip f0_ref p
              (Feature.transcribed_piece f0) (f0_ref :: rest) s2)
    as (s' & Hrun & Hnext & Hmono & Hkeep & Hsplit).
  { done. }
  { intros tid Htid. rewrite Hfeat2, Hfeat1. by apply Hin. }
  { intros i Hi. rewrite Hfeat2, Hfeat1. apply Hfresh. lia. }
  { exists f0. by rewrite Hfeat2, Hfeat1. }
  pose proof (keeps_for_each _ (f0_ref :: rest)
    (λ x, keeps_bind _ _ (keeps_get_feature f0_ref)
            (λ f, keeps_set_status_downstream_border nc
                    (Feature.coordinate f) ip x p
                    (Feature.transcribed_piece f0))) s2) as Hview.
  rewrite Hrun in Hview |- *. simpl in Hview. rewrite Hview2 in Hview.
  unfold piece_view in Hview. injection Hview as Hp Hh Hd Hsl Htr.
  exists s', p, (next_id s2).
  split; [done |]. split; [congruence |].
  split; [congruence |]. split; [congruence |]. split.
  { destruct Hcase as [[Hsome ->] | (Hnone & -> & Hn1 & Hp1 & Hh1)].
    - left. by rewrite Hnext2.
    - right. rewrite Hnext2, Hn1, Hp, Hh. done. }
  intros k tid t Hk Ht.
  destruct (Hsplit k tid t Hk) as (Hnew & linked & Hrm & H1 & H2 & H3).
  { by rewrite Hfeat2, Hfeat1. }
  split; [by rewrite <- Hfeat1, <- Hfeat2 |].
  exists linked. done.
Qed.



(** C4, as the code has it.  A step that classifies as OverlapsDownstream
    when the trimmer already holds a downstream piece, that is after an
    earlier split of the same run, raises nothing: it splits again, links
    the new features to the piece of the first split, and makes no further
    piece. *)
Theorem overlaps_downstream_splits_again (new_coords : Coordinate.t)
    (is_plus_strand : bool) (loc : Locals) (st : Step) (s : State)
    (f0 : Feature.t) (p : nat) :
  _downstream_piece s = Some p →
  NoDup (aligned_features st) →
  (∃ f0_ref, head (aligned_features st) = Some f0_ref
             ∧ features s !! f0_ref = Some f0) →
  position_category (FeatureVsCoords.init f0 new_coords is_plus_strand)
  = Some OverlapsDownstream →
  (∀ tid, tid ∈ aligned_features st →
     ∃ t, features s !! tid = Some t
          ∧ Feature.transcribed_piece f0 ∈ Feature.transcribed_pieces t) →
  (∀ i, (next_id s ≤ i)%nat → features s !! i = None) →
  ∃ s',
    walk_step new_coords is_plus_strand loc st s
    = (Ok (mkLocals true (Some (Feature.transcribed_piece f0))), s')
    ∧ _downstream_piece s' = Some p
    ∧ handlers s' = handlers s
    ∧ pieces s' = pieces s
    ∧ ∀ k template t,
        aligned_features st !! k = Some template →
        features s !! template = Some t →
        split_at_border s s'
          (if is_plus_strand then Coordinate.end_ new_coords
           else Coordinate.start new_coords - 1)
          (Feature.coordinate f0) (Feature.transcribed_piece f0) p template
          (next_id s + k)%nat t.
Proof.
  intros Hdp Hnd Hf0 Hcat Hin Hfresh.
  destruct (walk_step_overlaps_downstream new_coords is_plus_strand loc st s
              f0 Hnd Hf0 Hcat Hin Hfresh)
    as (s' & q & base & Hrun & Hdq & _ & _ & Hcase & Hsplit).
  destruct Hcase as [(Hsome & -> & Hp & Hh) | (Hnone & _)]; [| congruence].
  assert (q = p) as -> by congruence.
  exists s'. done.
Qed.



Lemma overlaps_downstream_splits_again_witness :
  let s := set__downstream_piece (Some 9%nat)
             (example_session (<[2%nat := plus_feature 2 1600 2600]> ∅)) in
  ∃ s',
    walk_step window_1000_2000 true (mkLocals true (Some 3%nat))
      (mkStep [2%nat] 3) s
    = (Ok (mkLocals true (Some 3%nat)), s')
    ∧ _downstream_piece s' = Some 9%nat
    ∧ handlers s' = handlers s
    ∧ pieces s' = pieces s
    ∧ ∀ k template t,
        [2%nat] !! k = Some template →
        features s !! template = Some t →
        split_at_border s s' 2000 chr1 3 9 template (10 + k)%nat t.
Proof.
  intros s.
  apply (overlaps_downstream_splits_again window_1000_2000 true
           (mkLocals true (Some 3%nat)) (mkStep [2%nat] 3) s
           (plus_feature 2 1600 2600) 9).
  - reflexivity.
  - apply NoDup_singleton.
  - exists 2%nat. split; reflexivity.
  - reflexivity.
  - intros tid Htid. apply list_elem_of_singleton in Htid as ->.
    exists (plus_feature 2 1600 2600). split; [reflexivity | by left].
  - intros i Hi. simpl in *. rewrite lookup_insert_ne by lia.
    apply lookup_empty.
Defined.

(** C4, as the claim words it, fails.  The features [[1500, 2500)] and
    [[1600, 2600)] of one transcript both straddle the end of the window
    [[1000, 2000)].  The walk takes the OverlapsDownstream branch twice, the
    second time on the state the first split left, and the run ends
    normally: both features are cut at 2000, two new features 11 and 12 are
    made, and both are linked to the one new piece 10. *)
Lemma second_split_is_performed :
  let s := example_session
             (<[1%nat := plus_feature 1 1500 2500]>
                (<[2%nat := plus_feature 2 1600 2600]> ∅)) in
  let first := mkStep [1%nat] 3 in
  let second := mkStep [2%nat] 3 in
  let after_first :=
    snd (walk_step window_1000_2000 true (mkLocals false None) first s) in
  let s' := snd (modify4new_slice window_1000_2000 true [first; second] s) in
  step_category window_1000_2000 true s first = Some OverlapsDownstream
  ∧ step_category window_1000_2000 true after_first second
    = Some OverlapsDownstream
  ∧ fst (modify4new_slice window_1000_2000 true [first; second] s) = Ok tt
  ∧ handlers s' = [10%nat]
  ∧ Feature.end_ <$> features s' !! 1%nat = Some 2000
  ∧ Feature.end_ <$> features s' !! 2%nat = Some 2000
  ∧ features s' !! 11%nat
    = Some (Feature.mk 11 None 2000 2500 1500 true false true chr1 3
              [10%nat])
  ∧ features s' !! 12%nat
    = Some (Feature.mk 12 None 2000 2600 1600 true false true chr1 3
              [10%nat]).
Proof. cbv zeta. repeat split; vm_compute; reflexivity. Qed.

(** ** The handler of [NoFeaturesInSliceError] in [modify4slice] *)

Lemma elem_of_piece_features (s : State) (p : nat) (f : Feature.t) :
  f ∈ piece_features s p
  ↔ ∃ i, features s !! i = Some f ∧ p ∈ Feature.transcribed_pieces f.
Proof.
  unfold piece_features.
  rewrite (list_elem_of_In (List.filter _ _)), filter_In.
  rewrite <- list_elem_of_In, bool_decide_eq_true, list_elem_of_fmap. split.
  - intros [([i g] & -> & Hg%elem_of_map_to_list) Hp]. by exists i.
  - intros (i & Hf & Hp). split; [| done].
    exists (i, f). split; [done |]. by apply elem_of_map_to_list.
Qed.

(** A loop of checks that leave the state alone ends normally when every
    check passes and with [AssertionError] at the first that does not. *)
Lemma for_each_check {A} (check : State → A → bool) (body : A → M unit)
    (l : list A) (s : State) :
  (∀ x, body x s
        = if check s x then (Ok tt, s) else (Raise AssertionError, s)) →
  for_each body l s
  = if forallb (check s) l then (Ok tt, s) else (Raise AssertionError, s).
Proof.
  intros Hbody. induction l as [| x l IH]; [done |].
  simpl. rewrite bind_run, Hbody. destruct (check s x); [exact IH | done].
Qed.

Lemma recheck_no_overlap_run (nc : Coordinate.t) (ip : bool)
    (transcribed : Transcribed) (s : State) :
  recheck_no_overlap nc ip transcribed s
  = if forallb
         (λ p, forallb
                 (λ f, negb (Bool.eqb ip (Feature.is_plus_strand f)
                             && in_rechecked_range nc ip f))
                 (piece_features s p))
         (transcribed_pieces transcribed)
    then (Ok tt, s) else (Raise AssertionError, s).
Proof.
  unfold recheck_no_overlap.
  apply (for_each_check
           (λ s p, forallb
                     (λ f, negb (Bool.eqb ip (Feature.is_plus_strand f)
                                 && in_rechecked_range nc ip f))
                     (piece_features s p))).
  intros p. rewrite bind_run. unfold gets.
  apply (for_each_check
           (λ _ f, negb (Bool.eqb ip (Feature.is_plus_strand f)
                         && in_rechecked_range nc ip f))).
  intros f. destruct (Bool.eqb ip (Feature.is_plus_strand f)); [| done].
  by destruct (in_rechecked_range nc ip f).
Qed.

Lemma in_rechecked_range_spec (nc : Coordinate.t) (ip : bool) (f : Feature.t) :
  in_rechecked_range nc ip f = true
  ↔ if ip
    then Coordinate.start nc <= Feature.position f <= Coordinate.end_ nc
    else Coordinate.start nc - 1 <= Feature.position f
         <= Coordinate.end_ nc - 1.
Proof.
  unfold in_rechecked_range.
  destruct ip; rewrite andb_true_iff, !Z.leb_le; tauto.
Qed.

(** C7, as the code has it.  When the trimmer of a transcript raises
    [NoFeaturesInSliceError], [modify4slice] looks at every feature of the
    transcript's pieces that is on the strand of the slice and asserts that
    its [position] is outside the closed range [[start, end]] on the plus
    strand, [[start - 1, end - 1]] on the minus strand.  If no such feature
    is in the range the error is dropped and the loop goes on with the next
    transcript; if one is, [AssertionError] leaves [modify4slice]. *)
Theorem recheck_after_NoFeaturesInSliceError (self : nat)
    (new_coords : Coordinate.t) (is_plus_strand : bool)
    (transcribed : Transcribed) (rest : list Transcribed) (s : State) :
  let s0 := TranscriptTrimmer_init (transcribed_id transcribed) self s in
  let run :=
    modify4new_slice new_coords is_plus_strand
      (transition_5p_to_3p transcribed) s0 in
  fst run = Raise NoFeaturesInSliceError →
  let in_range (f : Feature.t) :=
    if is_plus_strand
    then Coordinate.start new_coords <= Feature.position f
         <= Coordinate.end_ new_coords
    else Coordinate.start new_coords - 1 <= Feature.position f
         <= Coordinate.end_ new_coords - 1 in
  let offending :=
    ∃ p i f, p ∈ transcribed_pieces transcribed
             ∧ features (snd run) !! i = Some f
             ∧ p ∈ Feature.transcribed_pieces f
             ∧ Feature.is_plus_strand f = is_plus_strand
             ∧ in_range f in
  (¬ offending →
   modify4slice self new_coords is_plus_strand (transcribed :: rest) s
   = modify4slice self new_coords is_plus_strand rest (snd run))
  ∧ (offending →
     modify4slice self new_coords is_plus_strand (transcribed :: rest) s
     = (Raise AssertionError, snd run)).
Proof.
  intros s0 run Hraise in_range offending.
  assert (Hstep :
    modify4slice self new_coords is_plus_strand (transcribed :: rest) s
    = match recheck_no_overlap new_coords is_plus_strand transcribed (snd run)
      with
      | (Ok _, s') => modify4slice self new_coords is_plus_strand rest s'
      | (Raise e, s') => (Raise e, s')
      end).
  { unfold modify4slice. simpl. rewrite bind_run, bind_run. unfold modify.
    fold s0. cbv beta iota. unfold try_except_NoFeaturesInSliceError.
    fold run. destruct run as [r s1]. simpl in Hraise. subst r. reflexivity. }
  rewrite Hstep, recheck_no_overlap_run. clear Hstep.
  set (ok := λ f : Feature.t,
         negb (Bool.eqb is_plus_strand (Feature.is_plus_strand f)
               && in_rechecked_range new_coords is_plus_strand f)).
  set (all_ok := forallb (λ p, forallb ok (piece_features (snd run) p))
                   (transcribed_pieces transcribed)).
  assert (Hall : all_ok = true ↔ ¬ offending).
  { unfold all_ok. rewrite forallb_forall. split.
    - intros Hok (p & i & f & Hp & Hf & Hpf & Hs & Hr).
      specialize (Hok p ltac:(by apply list_elem_of_In)).
      rewrite forallb_forall in Hok.
      specialize (Hok f). unfold ok in Hok.
      rewrite Hs, Bool.eqb_reflx in Hok.
      apply in_rechecked_range_spec in Hr. rewrite Hr in Hok.
      assert (false = true); [| done]. apply Hok.
      apply list_elem_of_In, elem_of_piece_features. by exists i.
    - intros Hno p Hp%list_elem_of_In. apply forallb_forall.
      intros f Hf%list_elem_of_In. unfold ok.
      destruct (Bool.eqb is_plus_strand (Feature.is_plus_strand f)) eqn:Hs;
        [| done].
      destruct (in_rechecked_range new_coords is_plus_strand f) eqn:Hr;
        [| done].
      exfalso. apply Hno. apply elem_of_piece_features in Hf as (i & Hf & Hpf).
      exists p, i, f. repeat split; try done.
      + symmetry. by apply Bool.eqb_prop.
      + by apply in_rechecked_range_spec. }
  split.
  - intros Hno. apply Hall in Hno. by rewrite Hno.
  - intros Hoff. destruct all_ok; [| done].
    exfalso. by apply Hall.
Qed.

Lemma recheck_after_NoFeaturesInSliceError_witness :
  let s := example_session (<[1%nat := plus_feature 1 7000 7100]> ∅) in
  let transcribed := mkTranscribed 5 [3%nat] [mkStep [1%nat] 3] in
  fst (modify4slice 0 window_5000_6000 true [transcribed] s) = Ok tt.
Proof.
  intros s transcribed.
  pose proof (recheck_after_NoFeaturesInSliceError 0 window_5000_6000 true
                transcribed [] s) as H.
  cbv zeta in H. specialize (H ltac:(vm_compute; reflexivity)).
  destruct H as [H _]. rewrite H; [reflexivity |].
  intros (p & i & f & _ & Hf & _ & _ & Hr).
  destruct (decide (i = 1%nat)) as [-> | Hne].
  - vm_compute in Hf. injection Hf as <-. simpl in Hr. lia.
  - change (features _) with (<[1%nat := plus_feature 1 7000 7100]>
                                (∅ : gmap nat Feature.t)) in Hf.
    rewrite lookup_insert_ne, lookup_empty in Hf by done. done.
Defined.

(** C7, as the claim words it, fails.  The only feature of the transcript
    is on the plus strand at position 6000: it is not inside the window
    [[5000, 6000)], and the trimmer raises [NoFeaturesInSliceError]; yet the
    assertion of the handler, which tests [5000 <= 6000 <= 6000], fails and
    [AssertionError] leaves [modify4slice]. *)
Lemma recheck_range_is_closed :
  let s := example_session (<[1%nat := plus_feature 1 6000 6100]> ∅) in
  let transcribed := mkTranscribed 5 [3%nat] [mkStep [1%nat] 3] in
  fst (modify4new_slice window_5000_6000 true
         (transition_5p_to_3p transcribed) (TranscriptTrimmer_init 5 0 s))
  = Raise NoFeaturesInSliceError
  ∧ (∀ i f, features s !! i = Some f →
            ¬ (Coordinate.start window_5000_6000 <= Feature.position f
               < Coordinate.end_ window_5000_6000))
  ∧ fst (modify4slice 0 window_5000_6000 true [transcribed] s)
    = Raise AssertionError.
Proof.
  cbv zeta. split; [vm_compute; reflexivity |].
  split; [| vm_compute; reflexivity].
  intros i f Hf. simpl in Hf.
  destruct (decide (i = 1%nat)) as [-> | Hne].
  - rewrite lookup_insert_eq in Hf. injection Hf as <-. simpl. lia.
  - rewrite lookup_insert_ne, lookup_empty in Hf by done. done.
Qed.

(** * Further properties of the slicer *)

(** ** The classifier on well-formed input *)

(** X1.  The decision table of the chain.  A feature on another sequence
    or strand is Detached, whatever its position, and only such a feature
    is.  For a feature of the window's sequence and strand, with effective
    start [ps] below effective end [pe], against a window with [ws < we]:
    the side before the window in transcription order is Upstream, the side
    after it Downstream; a feature that reaches over the 5' edge is
    OverlapsUpstream even when it also reaches over the 3' edge, and
    OverlapsDownstream is left for a feature that starts inside the window
    and ends beyond its 3' edge. *)
Theorem classification_table (f : Feature.t) (w : Coordinate.t)
    (strand : bool) :
  let pi := FeatureVsCoords.init f w strand in
  let ps := FeatureVsCoords.feature_py_start pi in
  let pe := FeatureVsCoords.feature_py_end pi in
  let ws := Coordinate.start w in
  let we := Coordinate.end_ w in
  (classify f w strand = Some Detached
   ↔ Coordinate.seqid w ≠ Coordinate.seqid (Feature.coordinate f)
     ∨ Feature.is_plus_strand f ≠ strand)
  ∧ (Coordinate.seqid w = Coordinate.seqid (Feature.coordinate f) →
     Feature.is_plus_strand f = strand →
     ps < pe → ws < we →
     (classify f w strand = Some Contained ↔ ws <= ps ∧ pe <= we)
     ∧ if strand then
         (classify f w strand = Some Upstream ↔ pe <= ws)
         ∧ (classify f w strand = Some OverlapsUpstream ↔ ps < ws < pe)
         ∧ (classify f w strand = Some OverlapsDownstream
            ↔ ws <= ps < we ∧ we < pe)
         ∧ (classify f w strand = Some Downstream ↔ we <= ps)
       else
         (classify f w strand = Some Upstream ↔ we <= ps)
         ∧ (classify f w strand = Some OverlapsUpstream ↔ ps < we < pe)
         ∧ (classify f w strand = Some OverlapsDownstream
            ↔ ps < ws < pe ∧ pe <= we)
         ∧ (classify f w strand = Some Downstream ↔ pe <= ws)).
Proof.
  intros pi ps pe ws we.
  assert (Hdet : FeatureVsCoords.is_detached pi = true
            ↔ Coordinate.seqid w ≠ Coordinate.seqid (Feature.coordinate f)
              ∨ Feature.is_plus_strand f ≠ strand).
  { unfold FeatureVsCoords.is_detached. simpl.
    destruct (String.eqb_spec (Coordinate.seqid w)
                (Coordinate.seqid (Feature.coordinate f))) as [He | Hne];
      simpl; [| tauto].
    destruct strand, (Feature.is_plus_strand f); simpl;
      split; try tauto; try congruence; intros _; right; congruence. }
  split.
  - rewrite <- Hdet. unfold classify. fold pi. unfold position_category.
    destruct (FeatureVsCoords.is_detached pi); [done |].
    split; [| done].
    repeat match goal with
           | |- context [if ?b then _ else _] => destruct b
           end; done.
  - intros Hseq Hstrand Hf Hw.
    assert (Hnd : FeatureVsCoords.is_detached pi = false).
    { destruct (FeatureVsCoords.is_detached pi); [| done].
      destruct (proj1 Hdet eq_refl); congruence. }
    unfold classify. fold pi. unfold position_category. rewrite Hnd.
    clear Hdet Hnd Hseq Hstrand.
    unfold FeatureVsCoords.is_upstream, FeatureVsCoords.is_downstream,
      FeatureVsCoords.is_contained, FeatureVsCoords.overlaps_upstream,
      FeatureVsCoords.overlaps_downstream, FeatureVsCoords._is_lower,
      FeatureVsCoords._is_higher, FeatureVsCoords._overlaps_lower,
      FeatureVsCoords._overlaps_higher.
    fold ps pe. change (FeatureVsCoords.is_plus_strand pi) with strand.
    change (Coordinate.start (FeatureVsCoords.slice_coordinates pi)) with ws.
    change (Coordinate.end_ (FeatureVsCoords.slice_coordinates pi)) with we.
    clearbody ps pe ws we. clear pi.
    rewrite !Z.geb_leb.
    destruct strand;
      destruct (0 <=? ws - pe) eqn:E1; destruct (0 <=? ps - we) eqn:E2;
      destruct (ps <? ws) eqn:E3; destruct (ws <? pe) eqn:E4;
      destruct (ps <? we) eqn:E5; destruct (we <? pe) eqn:E6;
      destruct (ws <=? ps) eqn:E7; destruct (pe <=? we) eqn:E8;
      simpl; reflect_comparisons;
      try (exfalso; lia);
      repeat split; intros; try congruence; try lia.
Qed.

Lemma classification_table_witness :
  let f := Feature.mk 8 None 2499 1499 2499 false true true chr1 3 [3%nat] in
  classify f window_1000_2000 false = Some OverlapsUpstream
  ↔ FeatureVsCoords.feature_py_start
      (FeatureVsCoords.init f window_1000_2000 false) < 2000
    < FeatureVsCoords.feature_py_end
        (FeatureVsCoords.init f window_1000_2000 false).
Proof.
  intros f.
  refine (proj1 (proj2 (proj2 (proj2 (classification_table f window_1000_2000
                                        false) _ _ _ _))));
    reflexivity.
Defined.

(** ** What a split leaves behind *)

(** The two halves of a feature cut at the 3' edge of a non-empty window:
    the half that keeps the start is Contained, the half that starts at the
    cut is Downstream. *)
Lemma split_halves_classify (t : Feature.t) (nc oc : Coordinate.t) (ip : bool)
    (n : nat) (links : list nat) :
  classify t nc ip = Some OverlapsDownstream →
  Coordinate.start nc < Coordinate.end_ nc →
  Coordinate.seqid oc = Coordinate.seqid nc →
  let cut := if ip then Coordinate.end_ nc else Coordinate.start nc - 1 in
  classify (Feature.set_end_is_biological_end false (Feature.set_end cut t))
    nc ip = Some Contained
  ∧ classify
      (Feature.mk n None cut (Feature.end_ t) (Feature.position t)
         (Feature.is_plus_strand t) false (Feature.end_is_biological_end t)
         oc (Feature.transcribed_piece t) links) nc ip
    = Some Downstream.
Proof.
  intros Hod Hw Hseq cut. revert Hod. unfold classify, position_category.
  unfold FeatureVsCoords.is_detached. simpl. rewrite Hseq, String.eqb_refl.
  destruct (String.eqb_spec (Coordinate.seqid nc)
              (Coordinate.seqid (Feature.coordinate t))); simpl; [| done].
  destruct (Bool.eqb ip (Feature.is_plus_strand t)); simpl; [| done].
  unfold FeatureVsCoords.is_upstream, FeatureVsCoords.is_downstream,
    FeatureVsCoords.is_contained, FeatureVsCoords.overlaps_upstream,
    FeatureVsCoords.overlaps_downstream, FeatureVsCoords._is_lower,
    FeatureVsCoords._is_higher, FeatureVsCoords._overlaps_lower,
    FeatureVsCoords._overlaps_higher. simpl. subst cut.
  set (ws := Coordinate.start nc) in *. set (we := Coordinate.end_ nc) in *.
  set (fs := Feature.start t). set (fe := Feature.end_ t).
  clearbody ws we fs fe. rewrite !Z.geb_leb.
  destruct ip; simpl.
  - destruct (0 <=? ws - fe) eqn:E1; [done |].
    destruct ((fs <? ws) && (ws <? fe)) eqn:E2; [done |].
    destruct ((ws <=? fs) && (fs <? we) && ((ws <? fe) && (fe <=? we)))
      eqn:E3; [done |].
    destruct ((fs <? we) && (we <? fe)) eqn:E4; [| by destruct (0 <=? fs - we)].
    intros _. reflect_comparisons.
    replace (0 <=? ws - we) with false by (symmetry; apply Z.leb_gt; lia).
    replace (fs <? ws) with false by (symmetry; apply Z.ltb_ge; lia).
    replace (ws <=? fs) with true by (symmetry; apply Z.leb_le; lia).
    replace (fs <? we) with true by (symmetry; apply Z.ltb_lt; lia).
    replace (ws <? we) with true by (symmetry; apply Z.ltb_lt; lia).
    replace (we <=? we) with true by (symmetry; apply Z.leb_le; lia).
    replace (0 <=? we - we) with true by (symmetry; apply Z.leb_le; lia).
    replace (we <? ws) with false by (symmetry; apply Z.ltb_ge; lia).
    replace (we <? we) with false by (symmetry; apply Z.ltb_ge; lia).
    replace (0 <=? ws - fe) with false by (symmetry; apply Z.leb_gt; lia).
    simpl. rewrite !andb_false_r. done.
  - destruct (0 <=? fe + 1 - we) eqn:E1; [done |].
    destruct ((fe + 1 <? we) && (we <? fs + 1)) eqn:E2; [done |].
    destruct ((ws <=? fe + 1) && (fe + 1 <? we)
              && ((ws <? fs + 1) && (fs + 1 <=? we))) eqn:E3; [done |].
    destruct ((fe + 1 <? ws) && (ws <? fs + 1)) eqn:E4;
      [| by destruct (0 <=? ws - (fs + 1))].
    intros _. reflect_comparisons.
    replace (ws - 1 + 1) with ws by lia.
    replace (0 <=? ws - we) with false by (symmetry; apply Z.leb_gt; lia).
    replace (ws <? we) with true by (symmetry; apply Z.ltb_lt; lia).
    replace (we <? fs + 1) with false by (symmetry; apply Z.ltb_ge; lia).
    replace (ws <=? ws) with true by (symmetry; apply Z.leb_le; lia).
    replace (ws <? fs + 1) with true by (symmetry; apply Z.ltb_lt; lia).
    replace (fs + 1 <=? we) with true by (symmetry; apply Z.leb_le; lia).
    replace (0 <=? fe + 1 - we) with false by (symmetry; apply Z.leb_gt; lia).
    replace (we <? ws) with false by (symmetry; apply Z.ltb_ge; lia).
    replace (ws <=? fe + 1) with false by (symmetry; apply Z.leb_gt; lia).
    replace (ws <? ws) with false by (symmetry; apply Z.ltb_ge; lia).
    replace (0 <=? ws - ws) with true by (symmetry; apply Z.leb_le; lia).
    simpl. rewrite ?andb_false_r. done.
Qed.

Lemma overlaps_downstream_same_seqid (f : Feature.t) (nc : Coordinate.t)
    (ip : bool) :
  position_category (FeatureVsCoords.init f nc ip) = Some OverlapsDownstream →
  Coordinate.seqid (Feature.coordinate f) = Coordinate.seqid nc.
Proof.
  unfold position_category, FeatureVsCoords.is_detached. simpl.
  destruct (String.eqb_spec (Coordinate.seqid nc)
              (Coordinate.seqid (Feature.coordinate f))); simpl; done.
Qed.

(** X2.  After the OverlapsDownstream step on a non-empty window, every
    aligned feature that itself straddled the 3' edge has been cut into a
    part that is Contained in the window and a new part that is Downstream
    of it: the old feature keeps its start and now ends at the cut, the new
    feature starts at the cut and ends where the old one ended, so no
    position is lost or covered twice. *)
Theorem split_leaves_contained_and_downstream (new_coords : Coordinate.t)
    (is_plus_strand : bool) (loc : Locals) (st : Step) (s : State)
    (f0 : Feature.t) :
  NoDup (aligned_features st) →
  (∃ f0_ref, head (aligned_features st) = Some f0_ref
             ∧ features s !! f0_ref = Some f0) →
  position_category (FeatureVsCoords.init f0 new_coords is_plus_strand)
  = Some OverlapsDownstream →
  (∀ tid, tid ∈ aligned_features st →
     ∃ t, features s !! tid = Some t
          ∧ Feature.transcribed_piece f0 ∈ Feature.transcribed_pieces t) →
  (∀ i, (next_id s ≤ i)%nat → features s !! i = None) →
  Coordinate.start new_coords < Coordinate.end_ new_coords →
  ∃ s' base,
    walk_step new_coords is_plus_strand loc st s
    = (Ok (mkLocals true (Some (Feature.transcribed_piece f0))), s')
    ∧ ∀ k template t,
        aligned_features st !! k = Some template →
        features s !! template = Some t →
        classify t new_coords is_plus_strand = Some OverlapsDownstream →
        ∃ t' d,
          features s' !! template = Some t'
          ∧ features s !! (base + k)%nat = None
          ∧ features s' !! (base + k)%nat = Some d
          ∧ classify t' new_coords is_plus_strand = Some Contained
          ∧ classify d new_coords is_plus_strand = Some Downstream
          ∧ Feature.start t' = Feature.start t
          ∧ Feature.end_ t' = Feature.start d
          ∧ Feature.end_ d = Feature.end_ t.
Proof.
  intros Hnd Hf0 Hcat Hin Hfresh Hw.
  destruct (walk_step_overlaps_downstream new_coords is_plus_strand loc st s
              f0 Hnd Hf0 Hcat Hin Hfresh)
    as (s' & p & base & Hrun & _ & _ & _ & _ & Hsplit).
  exists s', base. split; [done |].
  intros k template t Hk Ht Hod.
  destruct (Hsplit k template t Hk Ht) as (Hnew & linked & _ & Hd & Ht' & _).
  destruct (split_halves_classify t new_coords (Feature.coordinate f0)
              is_plus_strand (base + k) (linked ++ [p]) Hod Hw)
    as [Hc Hdown]; [by eapply overlaps_downstream_same_seqid |].
  eexists _, _. split; [exact Ht' |]. split; [exact Hnew |].
  split; [exact Hd |]. split; [exact Hc |]. split; [exact Hdown |].
  simpl. done.
Qed.

Lemma split_leaves_contained_and_downstream_witness :
  let s := example_session (<[1%nat := plus_feature 1 1500 2500]> ∅) in
  ∃ s' base,
    walk_step window_1000_2000 true (mkLocals false None) (mkStep [1%nat] 3) s
    = (Ok (mkLocals true (Some 3%nat)), s')
    ∧ ∀ k template t,
        [1%nat] !! k = Some template →
        features s !! template = Some t →
        classify t window_1000_2000 true = Some OverlapsDownstream →
        ∃ t' d,
          features s' !! template = Some t'
          ∧ features s !! (base + k)%nat = None
          ∧ features s' !! (base + k)%nat = Some d
          ∧ classify t' window_1000_2000 true = Some Contained
          ∧ classify d window_1000_2000 true = Some Downstream
          ∧ Feature.start t' = Feature.start t
          ∧ Feature.end_ t' = Feature.start d
          ∧ Feature.end_ d = Feature.end_ t.
Proof.
  intros s.
  apply (split_leaves_contained_and_downstream window_1000_2000 true
           (mkLocals false None) (mkStep [1%nat] 3) s
           (plus_feature 1 1500 2500)).
  - apply NoDup_singleton.
  - exists 1%nat. split; reflexivity.
  - reflexivity.
  - intros tid Htid. apply list_elem_of_singleton in Htid as ->.
    exists (plus_feature 1 1500 2500). split; [reflexivity | by left].
  - intros i Hi. simpl in *. rewrite lookup_insert_ne by lia.
    apply lookup_empty.
  - reflexivity.
Defined.

(** ** Errors of the split *)

Lemma remove_first_None (x : nat) (l : list nat) :
  x ∉ l → remove_first x l = None.
Proof.
  induction l as [| y l IH]; [done |].
  intros Hx. apply not_elem_of_cons in Hx as [Hne Hx]. simpl.
  rewrite decide_False by done. by rewrite IH.
Qed.

Lemma remove_first_Permutation (x : nat) (l linked : list nat) :
  remove_first x l = Some linked → l ≡ₚ x :: linked.
Proof.
  revert linked. induction l as [| y l IH]; intros linked; [done |].
  simpl. destruct (decide (x = y)) as [-> | Hne]; [by intros [= ->] |].
  destruct (remove_first x l) as [l' |]; [| done].
  intros [= <-]. rewrite (IH l' eq_refl). apply Permutation_swap.
Qed.

(** X4.  [set_status_downstream_border] checks the link before it touches
    anything: for a template that is not linked to [old_piece] it raises
    [AssertionError] and the state is exactly as before, with no feature
    made and nothing added to the index. *)
Theorem set_status_downstream_border_unlinked (new_coords old_coords :
    Coordinate.t) (is_plus_strand : bool) (template new_piece old_piece : nat)
    (t : Feature.t) (s : State) :
  features s !! template = Some t →
  old_piece ∉ Feature.transcribed_pieces t →
  set_status_downstream_border new_coords old_coords is_plus_strand template
    new_piece old_piece s
  = (Raise AssertionError, s).
Proof.
  intros Ht Hnot. unfold set_status_downstream_border. cbv zeta.
  rewrite bind_run, (get_feature_run _ _ _ Ht), bind_run.
  by rewrite bool_decide_eq_false_2.
Qed.

Lemma set_status_downstream_border_unlinked_witness :
  let s := example_session (<[1%nat := plus_feature 1 1500 2500]> ∅) in
  set_status_downstream_border window_1000_2000 chr1 true 1 10 4 s
  = (Raise AssertionError, s).
Proof.
  intros s.
  apply (set_status_downstream_border_unlinked window_1000_2000 chr1 true 1 10
           4 (plus_feature 1 1500 2500) s).
  - reflexivity.
  - simpl. intros H. apply list_elem_of_singleton in H. discriminate H.
Defined.

(** X5.  [swap_piece] on a stored feature raises [ValueError], changing
    nothing, exactly when the feature is not linked to the old piece.
    Otherwise it ends normally and only that feature's links change: one
    link to the old piece is gone, the other links are kept in their order
    and the new piece is the last link. *)
Theorem swap_piece_spec (feature_handler new_piece old_piece : nat)
    (f : Feature.t) (s : State) :
  features s !! feature_handler = Some f →
  (old_piece ∉ Feature.transcribed_pieces f →
   swap_piece feature_handler new_piece old_piece s = (Raise ValueError, s))
  ∧ (old_piece ∈ Feature.transcribed_pieces f →
     ∃ kept,
       Feature.transcribed_pieces f ≡ₚ old_piece :: kept
       ∧ kept `sublist_of` Feature.transcribed_pieces f
       ∧ swap_piece feature_handler new_piece old_piece s
         = (Ok tt,
            set_features
              (<[feature_handler :=
                   Feature.set_transcribed_pieces (kept ++ [new_piece]) f]>
                 (features s)) s)).
Proof.
  intros Hf. split.
  - intros Hnot. unfold swap_piece.
    rewrite bind_run, (get_feature_run _ _ _ Hf).
    by rewrite remove_first_None.
  - intros Hin. destruct (remove_first_elem _ _ Hin) as [kept Hrm].
    exists kept. split; [by apply remove_first_Permutation |].
    split; [| by apply swap_piece_run].
    clear -Hrm. revert kept Hrm.
    induction (Feature.transcribed_pieces f) as [| y l IH]; intros kept;
      [done |].
    simpl. destruct (decide (old_piece = y)) as [-> | Hne].
    + intros [= ->]. by apply sublist_cons.
    + destruct (remove_first old_piece l) as [l' |]; [| done].
      intros [= <-]. apply sublist_skip. by apply IH.
Qed.

Lemma swap_piece_spec_witness :
  let f := Feature.mk 1 None 1500 2500 1500 true true true chr1 3
             [4%nat; 3%nat; 6%nat] in
  let s := example_session (<[1%nat := f]> ∅) in
  swap_piece 1 10 7 s = (Raise ValueError, s)
  ∧ ∃ kept,
      Feature.transcribed_pieces f ≡ₚ 3%nat :: kept
      ∧ kept `sublist_of` Feature.transcribed_pieces f
      ∧ swap_piece 1 10 3 s
        = (Ok tt,
           set_features
             (<[1%nat := Feature.set_transcribed_pieces (kept ++ [10%nat]) f]>
                (features s)) s).
Proof.
  intros f s. split.
  - apply (swap_piece_spec 1 10 7 f s); [reflexivity |].
    simpl. intros H. repeat (apply elem_of_cons in H as [H | H];
                             [discriminate H |]).
    by apply elem_of_nil in H.
  - apply (swap_piece_spec 1 10 3 f s); [reflexivity |].
    simpl. right. by left.
Defined.

(** X6.  A run that ends with [NoFeaturesInSliceError] has changed
    nothing: no feature or piece is made or altered, nothing is queued or
    sent, the index is as before.  (For a walk whose every step has a first
    aligned feature.) *)
Theorem NoFeaturesInSliceError_changes_nothing (new_coords : Coordinate.t)
    (is_plus_strand : bool) (walk : list Step) (s : State) :
  (∀ st, st ∈ walk → is_Some (step_category new_coords is_plus_strand s st)) →
  fst (modify4new_slice new_coords is_plus_strand walk s)
  = Raise NoFeaturesInSliceError →
  modify4new_slice new_coords is_plus_strand walk s
  = (Raise NoFeaturesInSliceError, s).
Proof.
  intros Hwf. unfold modify4new_slice. rewrite bind_run.
  destruct (walk_loop new_coords is_plus_strand walk (mkLocals false None) s)
    as [[loc | e] s'] eqn:Hrun.
  - destruct (seen_one_overlap loc) eqn:Hseen; [done |]. intros _.
    rewrite walk_loop_quiet in Hrun; [by injection Hrun as <- <- | done |].
    by eapply walk_loop_overlap_seen.
  - simpl. intros [= ->]. exfalso.
    apply (walk_loop_raises new_coords is_plus_strand walk
             (mkLocals false None) s NoFeaturesInSliceError);
      [by rewrite Hrun | done].
Qed.

Lemma NoFeaturesInSliceError_changes_nothing_witness :
  let s := example_session
             (<[1%nat := plus_feature 1 0 500]>
                (<[2%nat := plus_feature 2 2500 2600]> ∅)) in
  let walk := [mkStep [1%nat] 3; mkStep [2%nat] 3] in
  modify4new_slice window_1000_2000 true walk s
  = (Raise NoFeaturesInSliceError, s).
Proof.
  intros s walk.
  apply (NoFeaturesInSliceError_changes_nothing window_1000_2000 true walk s).
  - intros st Hst.
    repeat (apply elem_of_cons in Hst as [-> | Hst];
            [eexists; vm_compute; reflexivity |]).
    by apply elem_of_nil in Hst.
  - vm_compute. reflexivity.
Defined.

(** ** What the quiet branches queue *)

Lemma set_coord_swaps_twice (v w : list CoordSwap) (s : State) :
  set_coord_swaps w (set_coord_swaps v s) = set_coord_swaps w s.
Proof. by destruct s. Qed.

Lemma set_piece_swaps_twice (v w : list PieceSwap) (s : State) :
  set_piece_swaps w (set_piece_swaps v s) = set_piece_swaps w s.
Proof. by destruct s. Qed.

Lemma contained_loop_run (nc : Coordinate.t) (refs : list nat)
    (fs : list Feature.t) (s : State) :
  Forall2 (λ r f, features s !! r = Some f) refs fs →
  for_each (λ f_ref,
      f ← get_feature f_ref;
      modify (λ s, set_coord_swaps
        (coord_swaps s
         ++ [mkCoordSwap (Feature.id f) (Coordinate.id nc)]) s)) refs s
  = (Ok tt,
     set_coord_swaps
       (coord_swaps s
        ++ ((λ f, mkCoordSwap (Feature.id f) (Coordinate.id nc)) <$> fs)) s).
Proof.
  intros Hall. revert s Hall.
  induction fs as [| f fs IH] in refs |- *; intros s Hall.
  - apply Forall2_nil_inv_r in Hall as ->. simpl.
    rewrite app_nil_r. by destruct s.
  - apply Forall2_cons_inv_r in Hall as (r & refs' & Hr & Hall & ->).
    simpl. rewrite bind_run, bind_run, (get_feature_run _ _ _ Hr).
    unfold modify at 1. cbv beta iota.
    rewrite IH by done. simpl.
    by rewrite set_coord_swaps_twice, <- app_assoc.
Qed.

(** X7.  The Contained branch only queues: one coordinate swap per aligned
    feature, in their order, each naming the feature's id and the id of the
    new coordinate, is appended to [coord_swaps], and [seen_one_overlap] is
    set.  Nothing is sent and no feature changes; in particular every
    feature still has its old coordinate. *)
Theorem contained_step_queues_coord_swaps (new_coords : Coordinate.t)
    (is_plus_strand : bool) (loc : Locals) (st : Step) (s : State)
    (fs : list Feature.t) :
  Forall2 (λ r f, features s !! r = Some f) (aligned_features st) fs →
  step_category new_coords is_plus_strand s st = Some Contained →
  walk_step new_coords is_plus_strand loc st s
  = (Ok (mkLocals true (piece_at_border loc)),
     set_coord_swaps
       (coord_swaps s
        ++ ((λ f, mkCoordSwap (Feature.id f) (Coordinate.id new_coords))
              <$> fs)) s).
Proof.
  intros Hall Hcat. unfold step_category in Hcat. unfold walk_step.
  destruct (aligned_features st) as [| f0_ref rest] eqn:Hal; [done |].
  destruct (features s !! f0_ref) as [f0 |] eqn:Hf0; [| done].
  rewrite bind_run, (get_feature_run _ _ _ Hf0). cbv zeta. rewrite Hcat.
  rewrite bind_run, (contained_loop_run new_coords _ fs s Hall). done.
Qed.

Lemma contained_step_queues_coord_swaps_witness :
  let s := example_session
             (<[1%nat := plus_feature 1 1200 1300]>
                (<[2%nat := plus_feature 2 1200 1300]> ∅)) in
  walk_step window_1000_2000 true (mkLocals false None)
    (mkStep [1%nat; 2%nat] 3) s
  = (Ok (mkLocals true None),
     set_coord_swaps [mkCoordSwap 1 1; mkCoordSwap 2 1] s).
Proof.
  intros s.
  apply (contained_step_queues_coord_swaps window_1000_2000 true
           (mkLocals false None) (mkStep [1%nat; 2%nat] 3) s
           [plus_feature 1 1200 1300; plus_feature 2 1200 1300]).
  - repeat constructor.
  - reflexivity.
Defined.

Lemma downstream_loop_run (border p : nat) (refs : list nat)
    (fs : list Feature.t) (s : State) :
  _downstream_piece s = Some p →
  Forall2 (λ r f, features s !! r = Some f) refs fs →
  for_each (λ f_ref,
      p ← downstream_piece;
      f ← get_feature f_ref;
      modify (λ s, set_piece_swaps
        (piece_swaps s ++ [mkPieceSwap border p (Feature.id f)]) s)) refs s
  = (Ok tt,
     set_piece_swaps
       (piece_swaps s
        ++ ((λ f, mkPieceSwap border p (Feature.id f)) <$> fs)) s).
Proof.
  intros Hdp Hall. revert s Hdp Hall.
  induction fs as [| f fs IH] in refs |- *; intros s Hdp Hall.
  - apply Forall2_nil_inv_r in Hall as ->. simpl.
    rewrite app_nil_r. by destruct s.
  - apply Forall2_cons_inv_r in Hall as (r & refs' & Hr & Hall & ->).
    simpl. rewrite bind_run, bind_run.
    unfold downstream_piece at 1. rewrite bind_run. unfold gets at 1.
    rewrite Hdp. change ((mret p : M nat) s) with (Ok p, s). cbv beta iota.
    rewrite bind_run, (get_feature_run _ _ _ Hr).
    unfold modify at 1. cbv beta iota.
    rewrite IH by done. simpl.
    by rewrite set_piece_swaps_twice, <- app_assoc.
Qed.

(** X8.  The Downstream branch.  Before any border is met, or when the
    step's piece is not the border piece, the step changes nothing.  When
    the step's piece is the border piece, one piece swap per aligned
    feature, from the border piece to the trimmer's downstream piece, is
    appended to [piece_swaps]; nothing else changes, no link is altered yet
    and [seen_one_overlap] is not set by this branch. *)
Theorem downstream_step_queues_piece_swaps (new_coords : Coordinate.t)
    (is_plus_strand : bool) (loc : Locals) (st : Step) (s : State)
    (fs : list Feature.t) :
  Forall2 (λ r f, features s !! r = Some f) (aligned_features st) fs →
  step_category new_coords is_plus_strand s st = Some Downstream →
  (piece_at_border loc ≠ Some (piece st) →
   walk_step new_coords is_plus_strand loc st s = (Ok loc, s))
  ∧ ∀ p, piece_at_border loc = Some (piece st) →
         _downstream_piece s = Some p →
         walk_step new_coords is_plus_strand loc st s
         = (Ok loc,
            set_piece_swaps
              (piece_swaps s
               ++ ((λ f, mkPieceSwap (piece st) p (Feature.id f)) <$> fs)) s).
Proof.
  intros Hall Hcat. unfold step_category in Hcat. unfold walk_step.
  destruct (aligned_features st) as [| f0_ref rest] eqn:Hal; [done |].
  destruct (features s !! f0_ref) as [f0 |] eqn:Hf0; [| done].
  rewrite bind_run, (get_feature_run _ _ _ Hf0). cbv zeta. rewrite Hcat.
  split.
  - intros Hne. destruct (piece_at_border loc) as [border |]; [| done].
    rewrite bind_run. rewrite decide_False by congruence. done.
  - intros p -> Hdp. rewrite bind_run, decide_True by done.
    by rewrite (downstream_loop_run (piece st) p _ fs s Hdp Hall).
Qed.

Lemma downstream_step_queues_piece_swaps_witness :
  let s := set__downstream_piece (Some 9%nat)
             (example_session (<[1%nat := plus_feature 1 2500 2600]> ∅)) in
  walk_step window_1000_2000 true (mkLocals true (Some 3%nat))
    (mkStep [1%nat] 3) s
  = (Ok (mkLocals true (Some 3%nat)),
     set_piece_swaps [mkPieceSwap 3 9 1] s).
Proof.
  intros s.
  refine (proj2 (downstream_step_queues_piece_swaps window_1000_2000 true
                   (mkLocals true (Some 3%nat)) (mkStep [1%nat] 3) s
                   [plus_feature 1 2500 2600] _ _) 9%nat _ _).
  - repeat constructor.
  - reflexivity.
  - reflexivity.
  - reflexivity.
Defined.

(** ** Loading and querying the index *)

Lemma set_interval_trees_twice (v w : gmap string (list Interval.t))
    (s : State) :
  set_interval_trees w (set_interval_trees v s) = set_interval_trees w s.
Proof. by destruct s. Qed.

(** X9.  Loading is idempotent.  [load_to_intervaltree] on a stored
    feature never raises (its unit interval is never null), and loading the
    same feature a second time leaves the dictionary as the first load made
    it: the tree is a set, so no second entry appears. *)
Theorem load_to_intervaltree_idempotent (obj : nat) (f : Feature.t)
    (s : State) :
  features s !! obj = Some f →
  ∃ s',
    load_to_intervaltree obj s = (Ok tt, s')
    ∧ (load_to_intervaltree obj ;; load_to_intervaltree obj) s = (Ok tt, s')
    ∧ Interval.mk (Feature.position f) (Feature.position f + 1) obj
      ∈ default []
          (interval_trees s' !! Coordinate.seqid (Feature.coordinate f)).
Proof.
  intros Hf. eexists. split; [by apply load_to_intervaltree_run |].
  set (sid := Coordinate.seqid (Feature.coordinate f)).
  set (iv := Interval.mk (Feature.position f) (Feature.position f + 1) obj).
  set (tree := default [] (interval_trees s !! sid)).
  assert (Hiv : iv ∈ (if decide (iv ∈ tree) then tree else tree ++ [iv])).
  { case_decide; [done |]. apply elem_of_app. right. by left. }
  split.
  - rewrite bind_run, (load_to_intervaltree_run _ _ _ Hf). cbv zeta.
    fold sid iv tree. cbv beta iota.
    erewrite load_to_intervaltree_run by exact Hf. cbv zeta.
    fold sid iv. simpl. rewrite lookup_insert_eq. simpl.
    rewrite (decide_True _ _ Hiv), insert_insert_eq.
    by rewrite set_interval_trees_twice.
  - simpl. by rewrite lookup_insert_eq.
Qed.

Lemma load_to_intervaltree_idempotent_witness :
  let s := example_session (<[1%nat := plus_feature 1 1500 2500]> ∅) in
  ∃ s',
    load_to_intervaltree 1 s = (Ok tt, s')
    ∧ (load_to_intervaltree 1 ;; load_to_intervaltree 1) s = (Ok tt, s')
    ∧ Interval.mk 1500 1501 1 ∈ default [] (interval_trees s' !! "chr1").
Proof.
  intros s.
  apply (load_to_intervaltree_idempotent 1 (plus_feature 1 1500 2500) s).
  reflexivity.
Defined.

(** X10.  Insert, then look up.  Once a feature is loaded into the
    dictionary, whatever that held before, a query of its sequence for the
    unit window at its position on its own strand returns it, and the same
    query for the other strand does not.  (The features already in that
    tree must still be in the session.) *)
Theorem load_then_get_features_from_slice (obj : nat) (f : Feature.t)
    (s : State) :
  features s !! obj = Some f →
  let seqid := Coordinate.seqid (Feature.coordinate f) in
  (∀ iv, iv ∈ default [] (interval_trees s !! seqid) →
         is_Some (features s !! Interval.data iv)) →
  ∃ s' found others,
    load_to_intervaltree obj s = (Ok tt, s')
    ∧ get_features_from_slice seqid (Feature.position f)
        (Feature.position f + 1) (Feature.is_plus_strand f) s'
      = (Ok found, s')
    ∧ obj ∈ found
    ∧ get_features_from_slice seqid (Feature.position f)
        (Feature.position f + 1) (negb (Feature.is_plus_strand f)) s'
      = (Ok others, s')
    ∧ obj ∉ others.
Proof.
  intros Hf seqid Hstored.
  set (iv := Interval.mk (Feature.position f) (Feature.position f + 1) obj).
  set (tree := default [] (interval_trees s !! seqid)).
  set (tree' := if decide (iv ∈ tree) then tree else tree ++ [iv]).
  set (s' := set_interval_trees (<[seqid := tree']> (interval_trees s)) s).
  assert (Hiv : iv ∈ tree').
  { unfold tree'. case_decide; [done |]. apply elem_of_app. right. by left. }
  assert (Hstored' : ∀ x, x ∈ tree' → is_Some (features s' !! Interval.data x)).
  { intros x Hx. simpl. unfold tree' in Hx.
    destruct (decide (iv ∈ tree)); [by apply Hstored |].
    apply elem_of_app in Hx as [Hx | ->%list_elem_of_singleton];
      [by apply Hstored | by exists f]. }
  assert (Hquery : ∀ strand, ∃ out,
            get_features_from_slice seqid (Feature.position f)
              (Feature.position f + 1) strand s' = (Ok out, s')
            ∧ ∀ i, i ∈ out
                   ↔ ∃ x g, x ∈ IntervalTree.overlap (Feature.position f)
                                  (Feature.position f + 1) tree'
                            ∧ Interval.data x = i
                            ∧ features s' !! i = Some g
                            ∧ Feature.is_plus_strand g = strand).
  { intros strand. unfold get_features_from_slice. rewrite bind_run.
    unfold gets.
    change (interval_trees s') with (<[seqid := tree']> (interval_trees s)).
    cbv beta iota.
    rewrite decide_False by apply insert_non_empty.
    rewrite lookup_insert_eq. apply on_strand_run.
    intros x [Hx _]%elem_of_overlap. by apply Hstored'. }
  destruct (Hquery (Feature.is_plus_strand f)) as (found & Hfound & Hmem).
  destruct (Hquery (negb (Feature.is_plus_strand f)))
    as (others & Hothers & Hmem').
  exists s', found, others.
  split; [by apply load_to_intervaltree_run |]. split; [done |]. split.
  { apply Hmem. exists iv, f. split; [| done].
    apply elem_of_overlap. simpl. split; [done | lia]. }
  split; [done |].
  intros (x & g & _ & _ & Hg & Hs)%Hmem'. simpl in Hg.
  assert (g = f) as -> by congruence. by destruct (Feature.is_plus_strand f).
Qed.

Lemma load_then_get_features_from_slice_witness :
  let s := example_session (<[1%nat := plus_feature 1 1500 2500]> ∅) in
  ∃ s' found others,
    load_to_intervaltree 1 s = (Ok tt, s')
    ∧ get_features_from_slice "chr1" 1500 1501 true s' = (Ok found, s')
    ∧ 1%nat ∈ found
    ∧ get_features_from_slice "chr1" 1500 1501 false s' = (Ok others, s')
    ∧ 1%nat ∉ others.
Proof.
  intros s.
  apply (load_then_get_features_from_slice 1 (plus_feature 1 1500 2500) s).
  - reflexivity.
  - simpl. intros iv Hiv. by apply elem_of_nil in Hiv.
Defined.

(** ** The driver, transcript by transcript *)

(** X11.  The re-verification is read-only and looks at one strand only.
    [recheck_no_overlap] never changes the state, and it ends either
    normally or with [AssertionError]; when every feature of the
    transcript's pieces is on the other strand it ends normally, wherever
    those features are. *)
Theorem recheck_no_overlap_read_only (new_coords : Coordinate.t)
    (is_plus_strand : bool) (transcribed : Transcribed) (s : State) :
  (recheck_no_overlap new_coords is_plus_strand transcribed s = (Ok tt, s)
   ∨ recheck_no_overlap new_coords is_plus_strand transcribed s
     = (Raise AssertionError, s))
  ∧ ((∀ p i f, p ∈ transcribed_pieces transcribed →
               features s !! i = Some f →
               p ∈ Feature.transcribed_pieces f →
               Feature.is_plus_strand f ≠ is_plus_strand) →
     recheck_no_overlap new_coords is_plus_strand transcribed s = (Ok tt, s)).
Proof.
  rewrite recheck_no_overlap_run.
  match goal with
  | |- context [if ?b then _ else _] => destruct b eqn:Hall
  end; (split; [tauto |]); [done |].
  intros Hother. exfalso.
  assert (Htrue : forallb
            (λ p, forallb
               (λ f, negb (Bool.eqb is_plus_strand (Feature.is_plus_strand f)
                           && in_rechecked_range new_coords is_plus_strand f))
               (piece_features s p))
            (transcribed_pieces transcribed) = true); [| congruence].
  apply forallb_forall. intros p Hp%list_elem_of_In.
  apply forallb_forall. intros f Hf%list_elem_of_In.
  apply elem_of_piece_features in Hf as (i & Hf & Hpf).
  specialize (Hother p i f Hp Hf Hpf).
  replace (Bool.eqb is_plus_strand (Feature.is_plus_strand f)) with false;
    [done |].
  by destruct is_plus_strand, (Feature.is_plus_strand f).
Qed.

Lemma recheck_no_overlap_read_only_witness :
  let f := Feature.mk 1 None 5499 5399 5499 false true true chr1 3 [3%nat] in
  let s := example_session (<[1%nat := f]> ∅) in
  let transcribed := mkTranscribed 5 [3%nat] [mkStep [1%nat] 3] in
  recheck_no_overlap window_5000_6000 true transcribed s = (Ok tt, s).
Proof.
  intros f s transcribed.
  apply (proj2 (recheck_no_overlap_read_only window_5000_6000 true transcribed
                  s)).
  intros p i g _ Hg _. simpl in Hg.
  destruct (decide (i = 1%nat)) as [-> | Hne].
  - rewrite lookup_insert_eq in Hg. injection Hg as <-. simpl. discriminate.
  - rewrite lookup_insert_ne, lookup_empty in Hg by done. done.
Defined.

(** ** The trimmer deletes nothing *)

Lemma preserves_same_state {A} (P : State → Prop) (m : M A) :
  (∀ s, snd (m s) = s) → preserves P m.
Proof. intros Hm s HP. by rewrite Hm. Qed.

Lemma preserves_modify (P : State → Prop) (f : State → State) :
  (∀ s, P s → P (f s)) → preserves P (modify f).
Proof. intros Hf s HP. by apply Hf. Qed.

Lemma get_feature_same_state (i : nat) (s : State) :
  snd (get_feature i s) = s.
Proof.
  unfold get_feature. rewrite bind_run. unfold gets.
  by destruct (features s !! i).
Qed.

Lemma same_identity_set_end (e : Z) (b : bool) (f f' : Feature.t) :
  same_identity f f' →
  same_identity f
    (Feature.set_end_is_biological_end b (Feature.set_end e f')).
Proof. by destruct f'. Qed.

Section OnlyAdds.
Variable s0 : State.

Abbreviation Grows := (λ s, fresh_from_next_id s ∧ only_adds s0 s).

Lemma grows_downstream_piece : preserves Grows downstream_piece.
Proof.
  intros s [Hfresh (Hf & Hp & Ht)].
  destruct (downstream_piece_run s)
    as (p & s1 & Hrun & _ & Hfeat & Htrees & _ & _ & Hcase).
  rewrite Hrun. simpl.
  destruct Hcase as [[_ ->] | (_ & -> & Hnext & Hpieces & _)]; [done |].
  split.
  - intros i Hi. rewrite Hnext in Hi. rewrite Hfeat, Hpieces.
    rewrite lookup_insert_ne by lia. apply Hfresh. lia.
  - split; [by rewrite Hfeat |]. split; [| by rewrite Htrees].
    intros q x Hq. rewrite Hpieces, lookup_insert_ne; [by apply Hp |].
    intros <-. apply Hp in Hq.
    destruct (Hfresh (next_id s)) as [_ Hnone]; [lia | congruence].
Qed.

Lemma grows_set_status_downstream_border (nc oc : Coordinate.t) (ip : bool)
    (tid p border : nat) :
  preserves Grows (set_status_downstream_border nc oc ip tid p border).
Proof.
  intros s [Hfresh (Hf & Hp & Ht)].
  destruct (features s !! tid) as [t |] eqn:Htid.
  2:{ unfold set_status_downstream_border. cbv zeta. rewrite bind_run.
      unfold get_feature. rewrite bind_run. unfold gets. rewrite Htid.
      done. }
  destruct (decide (border ∈ Feature.transcribed_pieces t)) as [Hin | Hnot].
  2:{ unfold set_status_downstream_border. cbv zeta.
      rewrite bind_run, (get_feature_run _ _ _ Htid), bind_run.
      rewrite bool_decide_eq_false_2 by done. done. }
  destruct (remove_first_elem _ _ Hin) as [linked Hrm].
  destruct (ssdb_run nc oc ip tid p border t linked s Htid Hrm)
    as (s1 & Hrun & Hfeat & Hnext & Htrees); [by apply Hfresh |].
  pose proof (keeps_set_status_downstream_border nc oc ip tid p border s)
    as Hview.
  rewrite Hrun in Hview |- *. simpl in Hview |- *.
  unfold piece_view in Hview. injection Hview as Hpieces _ _ _ _.
  assert (Hlt : ∀ i x, features s !! i = Some x → i ≠ next_id s).
  { intros i x Hi ->. destruct (Hfresh (next_id s)); [lia | congruence]. }
  split.
  - intros i Hi. rewrite Hnext in Hi. rewrite Hfeat, Hpieces.
    rewrite lookup_insert_ne by lia.
    destruct (Hfresh i) as [Hi1 Hi2]; [lia |]. split; [| done].
    rewrite lookup_insert_ne; [done |]. intros <-. congruence.
  - split; [| split].
    + intros i f Hi. destruct (Hf i f Hi) as (f' & Hcur & Hsame).
      rewrite Hfeat. rewrite lookup_insert_ne by (symmetry; by eapply Hlt).
      destruct (decide (i = tid)) as [-> | Hne].
      * rewrite lookup_insert_eq. assert (f' = t) as -> by congruence.
        eexists. split; [done |]. by apply same_identity_set_end.
      * rewrite lookup_insert_ne by done. eauto.
    + intros q x Hq. rewrite Hpieces. by apply Hp.
    + intros sid iv Hiv. apply Ht in Hiv. rewrite Htrees.
      destruct (decide (Coordinate.seqid oc = sid)) as [<- | Hne].
      * rewrite lookup_insert_eq. simpl. case_decide; [done |].
        apply elem_of_app. by left.
      * by rewrite lookup_insert_ne.
Qed.

Lemma grows_execute_so_far : preserves Grows execute_so_far.
Proof.
  intros s HG. destruct (execute_so_far_run s)
    as (s1 & Hrun & Hfeat & Hnext & Htrees & Hview).
  rewrite Hrun. simpl. unfold piece_view in Hview.
  injection Hview as Hpieces _ _ _ _.
  destruct HG as [Hfresh (Hf & Hp & Ht)].
  unfold fresh_from_next_id, only_adds.
  rewrite Hfeat, Hnext, Htrees, Hpieces. done.
Qed.

Lemma grows_walk_step (nc : Coordinate.t) (ip : bool) (loc : Locals)
    (st : Step) :
  preserves Grows (walk_step nc ip loc st).
Proof.
  unfold walk_step.
  destruct (aligned_features st) as [| f0_ref rest]; [by intros s |].
  apply preserves_bind;
    [apply preserves_same_state, get_feature_same_state |].
  intros f0. cbv zeta.
  destruct (position_category (FeatureVsCoords.init f0 nc ip))
    as [[] |]; try (by intros s).
  - apply preserves_bind; [| by intros _ s].
    apply preserves_for_each. intros x.
    apply preserves_bind;
      [apply preserves_same_state, get_feature_same_state | intros f].
    by apply preserves_modify.
  - apply preserves_bind; [apply grows_downstream_piece | intros p].
    apply preserves_bind; [apply grows_execute_so_far | intros _].
    apply preserves_bind; [| by intros _ s].
    apply preserves_for_each. intros x.
    apply preserves_bind;
      [apply preserves_same_state, get_feature_same_state | intros f].
    apply grows_set_status_downstream_border.
  - destruct (piece_at_border loc) as [border |]; [| by intros s].
    apply preserves_bind; [| by intros _ s].
    destruct (decide (piece st = border)); [| by intros s].
    apply preserves_for_each. intros x.
    apply preserves_bind; [apply grows_downstream_piece | intros p].
    apply preserves_bind;
      [apply preserves_same_state, get_feature_same_state | intros f].
    by apply preserves_modify.
Qed.

Lemma grows_modify4new_slice (nc : Coordinate.t) (ip : bool)
    (walk : list Step) :
  preserves Grows (modify4new_slice nc ip walk).
Proof.
  unfold modify4new_slice. apply preserves_bind.
  - generalize (mkLocals false None).
    induction walk as [| st walk IH]; intros loc; [by intros s |].
    simpl. apply preserves_bind; [apply grows_walk_step | apply IH].
  - intros loc. destruct (negb (seen_one_overlap loc)); by intros s.
Qed.

End OnlyAdds.

(** X12.  A trimmer run deletes nothing.  On any walk, and whether it
    ends normally or with an exception, after [modify4new_slice] every
    feature of the session is still there with the id, given id, start,
    position, strand and start flag it had; every piece is still there as
    it was; every interval is still in the index.  (Nothing is said of a
    feature's end, which a split sets, nor of its coordinate and links,
    which the queued swaps are there to change.)  Identities from
    [next_id] on must be unused. *)
Theorem modify4new_slice_deletes_nothing (new_coords : Coordinate.t)
    (is_plus_strand : bool) (walk : list Step) (s : State) :
  fresh_from_next_id s →
  let s' := snd (modify4new_slice new_coords is_plus_strand walk s) in
  (∀ i f, features s !! i = Some f →
     ∃ f', features s' !! i = Some f'
           ∧ Feature.id f' = Feature.id f
           ∧ Feature.given_id f' = Feature.given_id f
           ∧ Feature.start f' = Feature.start f
           ∧ Feature.position f' = Feature.position f
           ∧ Feature.is_plus_strand f' = Feature.is_plus_strand f
           ∧ Feature.start_is_biological_start f'
             = Feature.start_is_biological_start f)
  ∧ (∀ p x, pieces s !! p = Some x → pieces s' !! p = Some x)
  ∧ (∀ seqid iv, iv ∈ default [] (interval_trees s !! seqid) →
                 iv ∈ default [] (interval_trees s' !! seqid)).
Proof.
  intros Hfresh s'.
  destruct (grows_modify4new_slice s new_coords is_plus_strand walk s)
    as [_ (Hf & Hp & Ht)].
  { split; [done |]. split; [| done].
    intros i f Hi. exists f. split; [done |]. by repeat split. }
  split; [| done].
  intros i f Hi. destruct (Hf i f Hi) as (f' & Hf' & Hsame).
  exists f'. split; [done |]. exact Hsame.
Qed.

Lemma modify4new_slice_deletes_nothing_witness :
  let s := example_session
             (<[1%nat := plus_feature 1 1500 2500]>
                (<[2%nat := plus_feature 2 2500 2600]> ∅)) in
  let s' := snd (modify4new_slice window_1000_2000 true
                   [mkStep [1%nat] 3; mkStep [2%nat] 3] s) in
  (∀ i f, features s !! i = Some f →
     ∃ f', features s' !! i = Some f'
           ∧ Feature.id f' = Feature.id f
           ∧ Feature.given_id f' = Feature.given_id f
           ∧ Feature.start f' = Feature.start f
           ∧ Feature.position f' = Feature.position f
           ∧ Feature.is_plus_strand f' = Feature.is_plus_strand f
           ∧ Feature.start_is_biological_start f'
             = Feature.start_is_biological_start f)
  ∧ (∀ p x, pieces s !! p = Some x → pieces s' !! p = Some x)
  ∧ (∀ seqid iv, iv ∈ default [] (interval_trees s !! seqid) →
                 iv ∈ default [] (interval_trees s' !! seqid)).
Proof.
  intros s.
  apply (modify4new_slice_deletes_nothing window_1000_2000 true
           [mkStep [1%nat] 3; mkStep [2%nat] 3] s).
  intros i Hi. simpl in *. split.
  - rewrite !lookup_insert_ne by lia. apply lookup_empty.
  - apply lookup_singleton_ne. lia.
Defined.

(** ** A failure in the middle of a group *)

(** X13.  The OverlapsDownstream branch does not roll back.  When some
    aligned feature is not linked to the piece of the first one, the step
    raises [AssertionError] at that feature; by then the downstream piece
    has been made and cached, and every aligned feature before the
    offending one has been split and stays split. *)
Theorem overlaps_downstream_step_keeps_partial_work (new_coords : Coordinate.t)
    (is_plus_strand : bool) (loc : Locals) (st : Step) (s : State)
    (f0 unlinked_feature : Feature.t) (done_ todo : list nat)
    (unlinked : nat) :
  aligned_features st = done_ ++ unlinked :: todo →
  NoDup (aligned_features st) →
  (∃ f0_ref, head (aligned_features st) = Some f0_ref
             ∧ features s !! f0_ref = Some f0) →
  position_category (FeatureVsCoords.init f0 new_coords is_plus_strand)
  = Some OverlapsDownstream →
  (∀ tid, tid ∈ done_ →
     ∃ t, features s !! tid = Some t
          ∧ Feature.transcribed_piece f0 ∈ Feature.transcribed_pieces t) →
  features s !! unlinked = Some unlinked_feature →
  Feature.transcribed_piece f0
  ∉ Feature.transcribed_pieces unlinked_feature →
  (∀ i, (next_id s ≤ i)%nat → features s !! i = None) →
  ∃ s' p base,
    walk_step new_coords is_plus_strand loc st s = (Raise AssertionError, s')
    ∧ _downstream_piece s' = Some p
    ∧ (_downstream_piece s = None →
       pieces s' !! p
       = Some (TranscribedPiece.mk p (super_locus s) (transcript s))
       ∧ handlers s' = handlers s ++ [p])
    ∧ features s' !! unlinked = Some unlinked_feature
    ∧ ∀ k template t,
        done_ !! k = Some template → features s !! template = Some t →
        split_at_border s s'
          (if is_plus_strand then Coordinate.end_ new_coords
           else Coordinate.start new_coords - 1)
          (Feature.coordinate f0) (Feature.transcribed_piece f0) p template
          (base + k)%nat t.
Proof.
  intros Hal Hnd (f0_ref & Hhead & Hf0) Hcat Hin Hbad Hnot Hfresh.
  unfold walk_step. rewrite Hal in Hhead, Hnd |- *.
  destruct (done_ ++ unlinked :: todo) as [| f0_ref' rest] eqn:Hal';
    [done |].
  injection Hhead as Heq. subst f0_ref'.
  rewrite bind_run, (get_feature_run _ _ _ Hf0). cbv zeta. rewrite Hcat.
  rewrite bind_run.
  destruct (downstream_piece_run s)
    as (p & s1 & -> & Hdp1 & Hfeat1 & Htrees1 & Hsl1 & Htr1 & Hcase).
  cbv beta iota. rewrite bind_run.
  destruct (execute_so_far_run s1)
    as (s2 & -> & Hfeat2 & Hnext2 & Htrees2 & Hview2).
  cbv beta iota. rewrite bind_run, <- Hal', for_each_app.
  rewrite <- Hal' in Hnd. apply NoDup_app in Hnd as (Hnd1 & Hdisj & Hnd2).
  assert (Hnext_le : (next_id s ≤ next_id s2)%nat).
  { rewrite Hnext2. destruct Hcase as [[_ ->] | (_ & _ & -> & _)]; lia. }
  destruct (border_loop_run new_coords (Feature.coordinate f0) is_plus_strand
              f0_ref p (Feature.transcribed_piece f0) done_ s2)
    as (s3 & Hrun & Hnext & Hmono & Hkeep & Hsplit).
  { done. }
  { intros tid Htid. rewrite Hfeat2, Hfeat1. by apply Hin. }
  { intros i Hi. rewrite Hfeat2, Hfeat1. apply Hfresh. lia. }
  { exists f0. by rewrite Hfeat2, Hfeat1. }
  rewrite Hrun.
  assert (Hbad3 : features s3 !! unlinked = Some unlinked_feature).
  { rewrite Hkeep, Hfeat2, Hfeat1; [done | |].
    - intros Hx. eapply Hdisj; [exact Hx | by left].
    - destruct (decide (unlinked < next_id s2)%nat); [done |].
      rewrite Hfeat2, Hfeat1 in *. rewrite Hfresh in Hbad by lia. done. }
  assert (Hf03 : is_Some (features s3 !! f0_ref)).
  { destruct done_ as [| d0 done'].
    - simpl in Hal'. injection Hal' as Hu _. rewrite <- Hu. by eexists.
    - simpl in Hal'. injection Hal' as Hd0 _.
      destruct (Hin f0_ref) as (t & Ht & _); [rewrite Hd0; by left |].
      rewrite Hd0 in Hsplit.
      destruct (Hsplit 0%nat f0_ref t eq_refl) as (_ & l & _ & _ & H2 & _);
        [by rewrite Hfeat2, Hfeat1 |].
      by eexists. }
  destruct Hf03 as [f0c Hf0c].
  pose proof (keeps_for_each _ done_
    (λ x, keeps_bind _ _ (keeps_get_feature f0_ref)
            (λ f, keeps_set_status_downstream_border new_coords
                    (Feature.coordinate f) is_plus_strand x p
                    (Feature.transcribed_piece f0))) s2) as Hview.
  rewrite Hrun in Hview. simpl in Hview. rewrite Hview2 in Hview.
  unfold piece_view in Hview. injection Hview as Hp Hh Hd Hsl Htr.
  exists s3, p, (next_id s2).
  split.
  { simpl. rewrite bind_run, bind_run, (get_feature_run _ _ _ Hf0c).
    unfold set_status_downstream_border. cbv zeta.
    rewrite bind_run, (get_feature_run _ _ _ Hbad3), bind_run.
    by rewrite bool_decide_eq_false_2. }
  split; [congruence |]. split.
  { intros Hnone.
    destruct Hcase as [[Hsome _] | (_ & -> & _ & Hp1 & Hh1)]; [congruence |].
    rewrite Hp, Hh, Hp1, Hh1. by rewrite lookup_insert_eq. }
  split; [done |].
  intros k template t Hk Ht.
  destruct (Hsplit k template t Hk) as (Hnew & linked & Hrm & H1 & H2 & H3).
  { by rewrite Hfeat2, Hfeat1. }
  split; [by rewrite <- Hfeat1, <- Hfeat2 |].
  exists linked. done.
Qed.

Lemma overlaps_downstream_step_keeps_partial_work_witness :
  let f2 := Feature.mk 2 None 1500 2500 1500 true true true chr1 4 [4%nat] in
  let s := example_session
             (<[1%nat := plus_feature 1 1500 2500]> (<[2%nat := f2]> ∅)) in
  ∃ s' p base,
    walk_step window_1000_2000 true (mkLocals false None)
      (mkStep [1%nat; 2%nat] 3) s
    = (Raise AssertionError, s')
    ∧ _downstream_piece s' = Some p
    ∧ (_downstream_piece s = None →
       pieces s' !! p = Some (TranscribedPiece.mk p 0 5)
       ∧ handlers s' = handlers s ++ [p])
    ∧ features s' !! 2%nat = Some f2
    ∧ ∀ k template t,
        [1%nat] !! k = Some template → features s !! template = Some t →
        split_at_border s s' 2000 chr1 3 p template (base + k)%nat t.
Proof.
  intros f2 s.
  apply (overlaps_downstream_step_keeps_partial_work window_1000_2000 true
           (mkLocals false None) (mkStep [1%nat; 2%nat] 3) s
           (plus_feature 1 1500 2500) f2 [1%nat] [] 2).
  - reflexivity.
  - simpl. apply NoDup_cons. split; [| apply NoDup_singleton].
    intros H. apply list_elem_of_singleton in H. discriminate H.
  - exists 1%nat. split; reflexivity.
  - reflexivity.
  - intros tid Htid. apply list_elem_of_singleton in Htid as ->.
    exists (plus_feature 1 1500 2500). split; [reflexivity | by left].
  - reflexivity.
  - simpl. intros H. apply list_elem_of_singleton in H. discriminate H.
  - intros i Hi. simpl in *. rewrite !lookup_insert_ne by lia.
    apply lookup_empty.
Defined.

(** ** The passes over the slices *)

Lemma execute_so_far_empties (s : State) :
  ∃ s', execute_so_far s = (Ok tt, s')
        ∧ piece_swaps s' = [] ∧ coord_swaps s' = [].
Proof.
  eexists. split; [reflexivity |].
  destruct s as [fs ps n its psw csw ex tr sl hs dp].
  destruct psw; destruct csw; split; reflexivity.
Qed.

Section SliceControllerProperties.
Variable super_locus_of : nat → nat.
Variable iteration_order : list nat → list nat.
Variable transcribeds : nat → State → list Transcribed.

Abbreviation one_way :=
  (_slice_annotations_1way super_locus_of iteration_order transcribeds).

Lemma one_way_flushes (slices : list (string * Z * Z * string)) (ip : bool)
    (s : State) :
  slices ≠ [] →
  fst (one_way slices ip s) = Ok tt →
  piece_swaps (snd (one_way slices ip s)) = []
  ∧ coord_swaps (snd (one_way slices ip s)) = [].
Proof.
  intros Hne. destruct (exists_last Hne) as (front & [[[seqid start] end_] sid] & ->).
  unfold _slice_annotations_1way. rewrite for_each_app.
  match goal with
  | |- context [for_each ?b front s] =>
      destruct (for_each b front s) as [[[] | e] s1]; [| done]
  end.
  cbn [for_each]. rewrite !bind_run.
  destruct (fresh s1) as [[id | e] s2]; [| done].
  cbv zeta. rewrite bind_run.
  match goal with
  | |- context [get_super_loci_frm_slice ?a ?b ?c ?d ?e ?f s2] =>
      destruct (get_super_loci_frm_slice a b c d e f s2)
        as [[sls | e'] s3]; [| done]
  end.
  rewrite bind_run.
  match goal with
  | |- context [for_each ?b sls s3] =>
      destruct (for_each b sls s3) as [[[] | e'] s4]; [| done]
  end.
  destruct (execute_so_far_empties s4) as (s5 & -> & Hp & Hc).
  simpl. done.
Qed.

Lemma one_way_without_index (seqid : string) (start end_ : Z) (sid : string)
    (rest : list (string * Z * Z * string)) (ip : bool) (s : State) :
  interval_trees s = ∅ →
  one_way ((seqid, start, end_, sid) :: rest) ip s
  = (Raise ValueError, set_next_id (S (next_id s)) s).
Proof.
  intros Hempty. unfold _slice_annotations_1way. cbn [for_each].
  rewrite bind_run, bind_run.
  change (fresh s) with (Ok (next_id s), set_next_id (S (next_id s)) s).
  cbv beta iota zeta. rewrite bind_run.
  unfold get_super_loci_frm_slice. rewrite bind_run.
  unfold get_features_from_slice. rewrite bind_run. unfold gets.
  cbn [interval_trees set_next_id]. rewrite Hempty.
  by rewrite decide_True.
Qed.

End SliceControllerProperties.

(** X14.  Each pass ends with an empty queue.  When
    [_slice_annotations_1way] returns normally from at least one slice,
    both [piece_swaps] and [coord_swaps] are empty: the last thing done for
    every slice is [execute_so_far].  The same holds for
    [slice_annotations] on a genome with at least one slice. *)
Theorem slice_passes_leave_queue_empty (super_locus_of : nat → nat)
    (iteration_order : list nat → list nat)
    (transcribeds : nat → State → list Transcribed) :
  (∀ slices is_plus_strand s,
     slices ≠ [] →
     let run := _slice_annotations_1way super_locus_of iteration_order
                  transcribeds slices is_plus_strand s in
     fst run = Ok tt →
     piece_swaps (snd run) = [] ∧ coord_swaps (snd run) = [])
  ∧ (∀ sequences s,
       gen_slices sequences ≠ [] →
       let run := slice_annotations super_locus_of iteration_order
                    transcribeds sequences s in
       fst run = Ok tt →
       piece_swaps (snd run) = [] ∧ coord_swaps (snd run) = []).
Proof.
  split.
  - intros slices ip s Hne run. by apply one_way_flushes.
  - intros sequences s Hne run. subst run. unfold slice_annotations.
    cbv zeta. rewrite bind_run.
    destruct (_slice_annotations_1way super_locus_of iteration_order
                transcribeds (gen_slices sequences) true s)
      as [[[] | e] s1]; [| done].
    apply one_way_flushes.
    intros Hrev. apply Hne.
    by rewrite <- (reverse_involutive (gen_slices sequences)), Hrev.
Qed.

(** X15.  Slicing before the index is filled.  With the empty dictionary
    and at least one slice, the pass raises [ValueError] at the first slice;
    by then the coordinate of that slice has been added and committed, and
    nothing else has happened.  [slice_annotations] fails in the same way in
    its plus pass and never starts the minus pass. *)
Theorem slicing_without_index (super_locus_of : nat → nat)
    (iteration_order : list nat → list nat)
    (transcribeds : nat → State → list Transcribed)
    (s : State) :
  interval_trees s = ∅ →
  (∀ slice rest is_plus_strand,
     _slice_annotations_1way super_locus_of iteration_order transcribeds
       (slice :: rest) is_plus_strand s
     = (Raise ValueError, set_next_id (S (next_id s)) s))
  ∧ (∀ sequences,
       gen_slices sequences ≠ [] →
       slice_annotations super_locus_of iteration_order transcribeds
         sequences s
       = (Raise ValueError, set_next_id (S (next_id s)) s)).
Proof.
  intros Hempty. split.
  - intros [[[seqid start] end_] sid] rest ip. by apply one_way_without_index.
  - intros sequences Hne. unfold slice_annotations. cbv zeta.
    destruct (gen_slices sequences) as [| [[[seqid start] end_] sid] rest];
      [done |].
    rewrite bind_run. by rewrite one_way_without_index.
Qed.

Lemma slice_passes_leave_queue_empty_witness :
  let s := set_interval_trees {["chr1" := [Interval.mk 1200 1201 1]]}
             (example_session (<[1%nat := plus_feature 1 1200 1300]> ∅)) in
  let transcribeds := λ (_ : nat) (_ : State),
        [mkTranscribed 5 [3%nat] [mkStep [1%nat] 3]] in
  let run := _slice_annotations_1way (λ _, 0%nat) (λ l, l) transcribeds
               [("chr1", 1000, 2000, "slice0")] true s in
  piece_swaps (snd run) = [] ∧ coord_swaps (snd run) = [].
Proof.
  intros s transcribeds.
  apply (proj1 (slice_passes_leave_queue_empty (λ _, 0%nat) (λ l, l)
                  transcribeds)
           [("chr1", 1000, 2000, "slice0")] true s).
  - discriminate.
  - vm_compute. reflexivity.
Defined.

Lemma slicing_without_index_witness :
  let s := example_session (<[1%nat := plus_feature 1 1200 1300]> ∅) in
  _slice_annotations_1way (λ _, 0%nat) (λ l, l) (λ _ _, [])
    [("chr1", 1000, 2000, "slice0")] true s
  = (Raise ValueError, set_next_id 11 s).
Proof.
  intros s.
  apply (proj1 (slicing_without_index (λ _, 0%nat) (λ l, l) (λ _ _, []) s
                  eq_refl)).
Defined.

(** X16.  The order of loading does not matter.  [fill_intervaltrees]
    never raises on stored features, and two loads of the same features, in
    any order and however often each is listed, put the same intervals into
    every tree. *)
Theorem fill_intervaltrees_order_irrelevant (ids ids' : list nat) (s : State) :
  (∀ i, i ∈ ids → is_Some (features s !! i)) →
  (∀ i, i ∈ ids ↔ i ∈ ids') →
  fst (fill_intervaltrees ids s) = Ok tt
  ∧ fst (fill_intervaltrees ids' s) = Ok tt
  ∧ ∀ seqid iv,
      iv ∈ default [] (interval_trees (snd (fill_intervaltrees ids s)) !! seqid)
      ↔ iv ∈ default []
               (interval_trees (snd (fill_intervaltrees ids' s)) !! seqid).
Proof.
  intros Hin Hsame.
  destruct (fill_intervaltrees_run ids s Hin) as (t1 & -> & _ & _ & H1).
  destruct (fill_intervaltrees_run ids' s) as (t2 & -> & _ & _ & H2).
  { intros i Hi. apply Hin. by apply Hsame. }
  split; [done |]. split; [done |].
  intros seqid iv. simpl. rewrite H1, H2.
  split; (intros [? | (i & f & Hi & ?)]; [by left |]; right; exists i, f;
          split; [by apply Hsame | done]).
Qed.

Lemma fill_intervaltrees_order_irrelevant_witness :
  let s := example_session
             (<[1%nat := plus_feature 1 1200 1300]>
                (<[2%nat := plus_feature 2 1500 1600]> ∅)) in
  fst (fill_intervaltrees [1%nat; 2%nat] s) = Ok tt
  ∧ fst (fill_intervaltrees [2%nat; 1%nat; 2%nat] s) = Ok tt
  ∧ ∀ seqid iv,
      iv ∈ default []
             (interval_trees (snd (fill_intervaltrees [1%nat; 2%nat] s))
                !! seqid)
      ↔ iv ∈ default []
               (interval_trees
                  (snd (fill_intervaltrees [2%nat; 1%nat; 2%nat] s))
                  !! seqid).
Proof.
  intros s.
  apply (fill_intervaltrees_order_irrelevant [1%nat; 2%nat]
           [2%nat; 1%nat; 2%nat] s).
  - intros i Hi.
    repeat (apply elem_of_cons in Hi as [-> | Hi];
            [eexists; vm_compute; reflexivity |]).
    by apply elem_of_nil in Hi.
  - intros i. rewrite !elem_of_cons, !elem_of_nil. tauto.
Defined.
